(** * DragonForge patcher: rule model, application engine and file pass

    A shallow embedding of [scripts/patcher.py].  Text is a list of Unicode
    code points, the regular expressions of the rule tables are compiled
    from their pattern strings to a small backtracking program, and
    [re.sub] is the left-to-right scan of that program over the content.
    The file pass of [HighPatcher.apply] runs over an explicit world
    (directory oracle, glob results, file table and a write log). *)

From Stdlib Require Import String Ascii List NArith ZArith Bool Arith Lia.
Import ListNotations.
From Stdlib Require Import Permutation.

Set Implicit Arguments.

(** ** Text *)

(** A Python [str] is a sequence of code points. *)
Definition char := N.
Definition str := list char.

Definition ch (a : ascii) : char := N_of_ascii a.

(** [py "..."] is the Python literal with the same ASCII spelling. *)
Definition py (s : string) : str := map N_of_ascii (list_ascii_of_string s).

Definition c_eq : char := ch "=".
Definition c_semi : char := ch ";".
Definition c_bslash : char := ch "\".

(** The classification of the code points above ASCII is the Unicode
    database of the interpreter; it is a parameter of the development. *)
Record unicode_db := {
  uni_isspace : N -> bool;
  uni_isalnum : N -> bool
}.

(** The database in scope is found by instance resolution where a
    definition takes it as an implicit argument. *)
Existing Class unicode_db.

Definition between (lo hi c : N) : bool := (lo <=? c)%N && (c <=? hi)%N.

Definition ascii_space (c : char) : bool := between 9 13 c || between 28 32 c.

Definition ascii_alnum (c : char) : bool :=
  between 48 57 c || between 65 90 c || between 97 122 c.

(** [\s] on a str pattern. *)
Definition is_space (U : unicode_db) (c : char) : bool :=
  if (c <? 128)%N then ascii_space c else uni_isspace U c.

(** [\w] on a str pattern: alphanumeric or underscore. *)
Definition is_word (U : unicode_db) (c : char) : bool :=
  if (c <? 128)%N then ascii_alnum c || (c =? 95)%N else uni_isalnum U c.

Fixpoint mem (c : char) (cs : list char) : bool :=
  match cs with
  | [] => false
  | d :: cs' => (c =? d)%N || mem c cs'
  end.

(** ** Compiled patterns *)

(** One-character matchers: a literal, [\s], a set [[...]] or [[^...]]. *)
Inductive cset :=
| CChr (c : char)
| CSpace
| COf (cs : list char)
| CNot (cs : list char).

Inductive instr :=
| IOne (cs : cset)
| IStar (cs : cset)        (* greedy [x*] *)
| IPlus (cs : cset)        (* greedy [x+] *)
| IBound                   (* [\b] *)
| IOpen (n : nat)          (* start of group n *)
| IClose (n : nat).        (* end of group n *)

Definition prog := list instr.

Definition in_cset (U : unicode_db) (cs : cset) (c : char) : bool :=
  match cs with
  | CChr d => (c =? d)%N
  | CSpace => is_space U c
  | COf l => mem c l
  | CNot l => negb (mem c l)
  end.

Definition caps := list (nat * str).

Fixpoint lookup (n : nat) (l : list (nat * str)) : option str :=
  match l with
  | [] => None
  | (m, v) :: l' => if Nat.eqb n m then Some v else lookup n l'
  end.

Definition wordp (U : unicode_db) (c : option char) : bool :=
  match c with
  | Some x => is_word U x
  | None => false
  end.

(** [\b]: exactly one side of the position is a word character. *)
Definition at_boundary (U : unicode_db) (prev : option char) (s : str) : bool :=
  xorb (wordp U prev) (wordp U (hd_error s)).

(** Greedy repetition of a one-character matcher: take as many
    characters as possible, give back one at a time while the rest of
    the pattern fails. *)
Fixpoint star (R : Type) (p : char -> bool)
         (k : option char -> str -> option R)
         (prev : option char) (s : str) : option R :=
  match s with
  | c :: s' =>
      if p c then
        match star p k (Some c) s' with
        | Some r => Some r
        | None => k prev s
        end
      else k prev s
  | [] => k prev s
  end.

(** [run p prev s marks cs] matches program [p] at the position whose
    preceding character is [prev] and whose remaining text is [s]; the
    result is the captures and the text left after the match. *)
Fixpoint run (U : unicode_db) (p : prog) (prev : option char) (s : str)
         (marks : list (nat * str)) (cs : caps) : option (caps * str) :=
  match p with
  | [] => Some (cs, s)
  | IOne x :: p' =>
      match s with
      | c :: s' => if in_cset U x c then run U p' (Some c) s' marks cs else None
      | [] => None
      end
  | IStar x :: p' =>
      star (in_cset U x) (fun prev' s' => run U p' prev' s' marks cs) prev s
  | IPlus x :: p' =>
      match s with
      | c :: s' =>
          if in_cset U x c
          then star (in_cset U x) (fun prev' s' => run U p' prev' s' marks cs)
                    (Some c) s'
          else None
      | [] => None
      end
  | IBound :: p' =>
      if at_boundary U prev s then run U p' prev s marks cs else None
  | IOpen n :: p' => run U p' prev s ((n, s) :: marks) cs
  | IClose n :: p' =>
      match lookup n marks with
      | Some s0 =>
          run U p' prev s marks
              ((n, firstn (length s0 - length s) s0) :: cs)
      | None => None
      end
  end.

Definition re_match (U : unicode_db) (p : prog) (prev : option char) (s : str)
  : option (caps * str) :=
  run U p prev s [] [].

(** ** Pattern compiler *)

(** The compiler covers the syntax the rule tables use: literals, escaped
    characters, [\b], [\s], sets of plain characters, capturing groups, and
    [*] and [+] on a one-character item.  [None] stands for [re.error] and
    for every construct outside that syntax. *)
Inductive pmode :=
| PNormal
| PEsc
| PSetStart
| PSet (neg : bool) (acc : list char).

Record pstate := {
  ps_code : list instr;     (* emitted so far, last first *)
  ps_open : list nat;       (* groups opened and not yet closed *)
  ps_groups : nat;          (* groups opened so far *)
  ps_mode : pmode
}.

Definition emit (st : pstate) (i : instr) : pstate :=
  {| ps_code := i :: ps_code st; ps_open := ps_open st;
     ps_groups := ps_groups st; ps_mode := PNormal |}.

Definition set_mode (st : pstate) (m : pmode) : pstate :=
  {| ps_code := ps_code st; ps_open := ps_open st;
     ps_groups := ps_groups st; ps_mode := m |}.

Definition is_ascii_alnum (c : char) : bool := (c <? 128)%N && ascii_alnum c.

Definition pstep (st : pstate) (c : char) : option pstate :=
  match ps_mode st with
  | PNormal =>
      if (c =? ch "\")%N then Some (set_mode st PEsc)
      else if (c =? ch "(")%N then
        let n := S (ps_groups st) in
        Some {| ps_code := IOpen n :: ps_code st; ps_open := n :: ps_open st;
                ps_groups := n; ps_mode := PNormal |}
      else if (c =? ch ")")%N then
        match ps_open st with
        | n :: rest =>
            Some {| ps_code := IClose n :: ps_code st; ps_open := rest;
                    ps_groups := ps_groups st; ps_mode := PNormal |}
        | [] => None
        end
      else if (c =? ch "[")%N then Some (set_mode st PSetStart)
      else if (c =? ch "*")%N then
        match ps_code st with
        | IOne x :: code =>
            Some {| ps_code := IStar x :: code; ps_open := ps_open st;
                    ps_groups := ps_groups st; ps_mode := PNormal |}
        | _ => None
        end
      else if (c =? ch "+")%N then
        match ps_code st with
        | IOne x :: code =>
            Some {| ps_code := IPlus x :: code; ps_open := ps_open st;
                    ps_groups := ps_groups st; ps_mode := PNormal |}
        | _ => None
        end
      else if mem c (py ".^$?{|") then None
      else Some (emit st (IOne (CChr c)))
  | PEsc =>
      if (c =? ch "b")%N then Some (emit st IBound)
      else if (c =? ch "s")%N then Some (emit st (IOne CSpace))
      else if is_ascii_alnum c then None
      else Some (emit st (IOne (CChr c)))
  | PSetStart =>
      if (c =? ch "^")%N then Some (set_mode st (PSet true []))
      else if mem c (py "\[]-") then None
      else Some (set_mode st (PSet false [c]))
  | PSet neg acc =>
      if (c =? ch "]")%N then
        match acc with
        | [] => None
        | _ => Some (emit st (IOne (if neg then CNot (rev acc) else COf (rev acc))))
        end
      else if mem c (py "\[-") then None
      else Some (set_mode st (PSet neg (c :: acc)))
  end.

Fixpoint pfold (st : pstate) (p : str) : option pstate :=
  match p with
  | [] => Some st
  | c :: p' =>
      match pstep st c with
      | Some st' => pfold st' p'
      | None => None
      end
  end.

Definition pstart : pstate :=
  {| ps_code := []; ps_open := []; ps_groups := 0; ps_mode := PNormal |}.

(** [re.compile]: the program and its number of groups. *)
Definition re_compile (pattern : str) : option (prog * nat) :=
  match pfold pstart pattern with
  | Some st =>
      match ps_mode st, ps_open st with
      | PNormal, [] => Some (rev (ps_code st), ps_groups st)
      | _, _ => None
      end
  | None => None
  end.

(** ** Replacement templates *)

Inductive titem :=
| TLit (c : char)
| TGroup (n : nat).     (* [\g<n>] *)

Definition template := list titem.

Inductive tmode :=
| TNormal
| TEsc                   (* after a backslash *)
| TName                  (* after [\g] *)
| TNum (d : option nat). (* inside [\g<...>] *)

Definition digit_val (c : char) : option nat :=
  if between 48 57 c then Some (N.to_nat (c - 48)) else None.

(** The templates of the rule tables are literal text and [\g<n>]
    references; [None] is [re.error] (also for a reference to a group the
    pattern does not have) or a template outside that syntax. *)
Fixpoint tfold (groups : nat) (m : tmode) (acc : template) (t : str)
  : option template :=
  match t with
  | [] =>
      match m with
      | TNormal => Some (rev acc)
      | _ => None
      end
  | c :: t' =>
      match m with
      | TNormal =>
          if (c =? ch "\")%N then tfold groups TEsc acc t'
          else tfold groups TNormal (TLit c :: acc) t'
      | TEsc =>
          if (c =? ch "g")%N then tfold groups TName acc t' else None
      | TName =>
          if (c =? ch "<")%N then tfold groups (TNum None) acc t' else None
      | TNum d =>
          if (c =? ch ">")%N then
            match d with
            | Some n =>
                if (1 <=? n) && (n <=? groups)
                then tfold groups TNormal (TGroup n :: acc) t'
                else None
            | None => None
            end
          else
            match digit_val c with
            | Some v =>
                tfold groups
                      (TNum (Some (10 * match d with Some n => n | None => 0 end + v)))
                      acc t'
            | None => None
            end
      end
  end.

Definition parse_template (groups : nat) (repl : str) : option template :=
  tfold groups TNormal [] repl.

Fixpoint expand (t : template) (cs : caps) : str :=
  match t with
  | [] => []
  | TLit c :: t' => c :: expand t' cs
  | TGroup n :: t' =>
      match lookup n cs with
      | Some v => v
      | None => []
      end ++ expand t' cs
  end.

(** ** re.sub *)

(** The scan of [re.sub]: at each position, left to right, try the
    program; a match is replaced by the expanded template and the scan
    resumes after it ([skip] counts the matched characters still to pass).
    An empty match is replaced too and the scan moves one character on;
    the program has only greedy repetitions, so a first match that is
    empty is the only match at its position. *)
Fixpoint sub_scan (U : unicode_db) (p : prog) (t : template)
         (prev : option char) (s : str) (skip : nat) : str :=
  match s with
  | [] =>
      match skip with
      | 0 =>
          match re_match U p prev [] with
          | Some (cs, _) => expand t cs
          | None => []
          end
      | S _ => []
      end
  | c :: s' =>
      match skip with
      | S n => sub_scan U p t (Some c) s' n
      | 0 =>
          match re_match U p prev s with
          | Some (cs, rest) =>
              expand t cs ++
              match length s - length rest with
              | 0 => c :: sub_scan U p t (Some c) s' 0
              | S n => sub_scan U p t (Some c) s' n
              end
          | None => c :: sub_scan U p t (Some c) s' 0
          end
      end
  end.

(** [re.sub(pattern, repl, content, flags=re.MULTILINE)].  The flag changes
    the meaning of [^] and [$] only, which the compiler does not accept. *)
Definition re_sub (U : unicode_db) (pattern repl content : str) : option str :=
  match re_compile pattern with
  | Some (p, groups) =>
      match parse_template groups repl with
      | Some t => Some (sub_scan U p t None content 0)
      | None => None
      end
  | None => None
  end.

(** [re.search]: the first position with a match, as the text before it,
    the captures and the text after the match. *)
Fixpoint search_from (U : unicode_db) (p : prog) (prev : option char)
         (before : str) (s : str) : option (str * caps * str) :=
  match re_match U p prev s with
  | Some (cs, rest) => Some (rev before, cs, rest)
  | None =>
      match s with
      | [] => None
      | c :: s' => search_from U p (Some c) (c :: before) s'
      end
  end.

Definition re_search (U : unicode_db) (pattern s : str)
  : option (str * caps * str) :=
  match re_compile pattern with
  | Some (p, _) => search_from U p None [] s
  | None => None
  end.

(** ** Rule tables *)

(** [re.escape]: a backslash before each of the special characters. *)
Definition special_chars : list char :=
  py "()[]{}?*+-|^$\.&~# " ++ [9; 10; 13; 11; 12]%N.

Fixpoint re_escape (s : str) : str :=
  match s with
  | [] => []
  | c :: s' =>
      if mem c special_chars then c_bslash :: c :: re_escape s'
      else c :: re_escape s'
  end.

Definition mk_asgn (var : str) : str :=
  py "(\b" ++ re_escape var ++ py "\s*=\s*)([^;]+);".

(** A patch: pattern, replacement, identifier. *)
Definition PT := (str * str * string)%type.

Definition GPU_P : list PT := [
  (mk_asgn (py "adapter_id.vendor_id"), py "\g<1>0x1002;", "gpu_vid"%string);
  (mk_asgn (py "adapter_id.device_id"), py "\g<1>0x73DF;", "gpu_did"%string);
  (py "(SharedSystemMemory\s*=\s*)[^;]+;", py "\g<1>16384ULL * 1024 * 1024;",
   "gpu_mem"%string)
].

Definition SM_P : list PT := [
  (mk_asgn (py "data->HighestShaderModel"), py "\g<1>D3D_SHADER_MODEL_6_7;", "sm"%string);
  (mk_asgn (py "info.HighestShaderModel"), py "\g<1>D3D_SHADER_MODEL_6_7;", "sm_info"%string)
].

Definition WV_P : list PT := [
  (mk_asgn (py "options1.WaveOps"), py "\g<1>TRUE;", "wv0"%string);
  (mk_asgn (py "options1.WaveLaneCountMin"), py "\g<1>32;", "wv1"%string);
  (mk_asgn (py "options1.WaveLaneCountMax"), py "\g<1>128;", "wv2"%string)
].

Definition RB_P : list PT := [
  (mk_asgn (py "options.ResourceBindingTier"), py "\g<1>D3D12_RESOURCE_BINDING_TIER_3;", "rb0"%string);
  (mk_asgn (py "options.TiledResourcesTier"), py "\g<1>D3D12_TILED_RESOURCES_TIER_4;", "rb1"%string);
  (mk_asgn (py "options.ResourceHeapTier"), py "\g<1>D3D12_RESOURCE_HEAP_TIER_2;", "rb2"%string)
].

Definition SO_P : list PT := [
  (mk_asgn (py "options.DoublePrecisionFloatShaderOps"), py "\g<1>TRUE;", "so0"%string);
  (mk_asgn (py "options1.Int64ShaderOps"), py "\g<1>TRUE;", "so1"%string);
  (mk_asgn (py "options4.Native16BitShaderOpsSupported"), py "\g<1>TRUE;", "so2"%string)
].

Definition MS_P : list PT := [
  (mk_asgn (py "options7.MeshShaderTier"), py "\g<1>D3D12_MESH_SHADER_TIER_1;", "ms0"%string);
  (mk_asgn (py "options12.EnhancedBarriersSupported"), py "\g<1>TRUE;", "ms7"%string)
].

Definition RT_P : list PT := [
  (mk_asgn (py "options5.RaytracingTier"), py "\g<1>D3D12_RAYTRACING_TIER_1_1;", "rt0"%string);
  (mk_asgn (py "options5.RenderPassesTier"), py "\g<1>D3D12_RENDER_PASS_TIER_2;", "rt1"%string);
  (mk_asgn (py "options6.VariableShadingRateTier"), py "\g<1>D3D12_VARIABLE_SHADING_RATE_TIER_2;", "rt2"%string);
  (mk_asgn (py "options6.ShadingRateImageTileSize"), py "\g<1>8;", "rt3"%string);
  (mk_asgn (py "options6.BackgroundProcessingSupported"), py "\g<1>TRUE;", "rt4"%string)
].

Definition SF_P : list PT := [
  (mk_asgn (py "options7.SamplerFeedbackTier"), py "\g<1>D3D12_SAMPLER_FEEDBACK_TIER_1_0;", "sf0"%string);
  (mk_asgn (py "options2.DepthBoundsTestSupported"), py "\g<1>TRUE;", "sf1"%string)
].

Definition TX_P : list PT := [
  (mk_asgn (py "options8.UnalignedBlockTexturesSupported"), py "\g<1>TRUE;", "tx0"%string)
].

Definition RN_P : list PT := [
  (mk_asgn (py "options15.TriangleFanSupported"), py "\g<1>TRUE;", "rn4"%string)
].

(** ** Paths and the file system *)

Fixpoint ends_with_sep (s : string) : bool :=
  match s with
  | EmptyString => false
  | String c EmptyString => Ascii.eqb c "/"
  | String _ s' => ends_with_sep s'
  end.

(** [os.path.join] of two components (POSIX). *)
Definition join2 (path b : string) : string :=
  if String.prefix "/" b then b
  else if String.eqb path "" || ends_with_sep path then (path ++ b)%string
  else (path ++ "/" ++ b)%string.

Definition path_join (a : string) (ps : list string) : string :=
  fold_left join2 ps a.

(** [needle in hay] on strings. *)
Fixpoint contains (needle hay : string) : bool :=
  String.prefix needle hay ||
  match hay with
  | EmptyString => false
  | String _ hay' => contains needle hay'
  end.

(** The components of a path, split at each separator. *)
Fixpoint segments_from (cur : string) (p : string) : list string :=
  match p with
  | EmptyString => [cur]
  | String c p' =>
      if Ascii.eqb c "/" then cur :: segments_from "" p'
      else segments_from (cur ++ String c "") p'
  end.

Definition segments (p : string) : list string := segments_from "" p.

(** A file as the patcher sees it: the text that reading it yields (the
    file is opened with [errors='ignore'], so decoding never fails) and
    whether the system lets it be opened for reading and for writing. *)
Record file := {
  f_text : str;
  f_readable : bool;
  f_writable : bool
}.

(** The world of one run.  [w_glob] answers [glob.glob(pattern,
    recursive=True)], [w_isdir] answers [os.path.isdir]; a path with no
    entry in [w_files] cannot be opened as a file.  [w_writes] records each
    file opened for writing, oldest first. *)
Record world := {
  w_isdir : string -> bool;
  w_glob : string -> list string;
  w_files : list (string * file);
  w_writes : list string
}.

Fixpoint file_at (fp : string) (fs : list (string * file)) : option file :=
  match fs with
  | [] => None
  | (p, f) :: fs' => if String.eqb fp p then Some f else file_at fp fs'
  end.

Fixpoint store (fp : string) (txt : str) (fs : list (string * file))
  : list (string * file) :=
  match fs with
  | [] => []
  | (p, f) :: fs' =>
      if String.eqb fp p
      then (p, {| f_text := txt; f_readable := f_readable f;
                  f_writable := f_writable f |}) :: fs'
      else (p, f) :: store fp txt fs'
  end.

Inductive exn :=
| OSError (path : string)
| ReError.

Inductive outcome (A : Type) :=
| Ret (a : A)
| Raise (e : exn).

Arguments Ret {A} a.
Arguments Raise {A} e.

(** [open(fp, 'r', ...).read()] *)
Definition read_text (w : world) (fp : string) : option str :=
  match file_at fp (w_files w) with
  | Some f => if f_readable f then Some (f_text f) else None
  | None => None
  end.

(** [open(fp, 'w', ...).write(content)] *)
Definition write_text (w : world) (fp : string) (content : str) : option world :=
  match file_at fp (w_files w) with
  | Some f =>
      if f_writable f
      then Some {| w_isdir := w_isdir w; w_glob := w_glob w;
                   w_files := store fp content (w_files w);
                   w_writes := w_writes w ++ [fp] |}
      else None
  | None => None
  end.

(** ** class HighPatcher *)

Module HighPatcher.

Record t := { profile : string }.

Definition default_profile : string := "high".

Definition CAP_F : list string := ["device.c"%string].
Definition EX_D : list string :=
  ["tests"%string; "demos"%string; "include"%string; ".git"%string].

Definition _find_files (self : t) (w : world) (src pat : string) : list string :=
  let files := w_glob w (path_join src ["**"%string; pat]) in
  filter (fun f => negb (existsb (fun ex => contains ex f) EX_D)) files.

Fixpoint _apply_content (U : unicode_db) (self : t) (content : str)
         (patches : list PT) : option str :=
  match patches with
  | [] => Some content
  | (pattern, repl, _) :: rest =>
      match re_sub U pattern repl content with
      | Some content' => _apply_content U self content' rest
      | None => None
      end
  end.

Definition vkd3d_dirs (src : string) : list string :=
  [path_join src ["libs"%string; "vkd3d"%string];
   path_join src ["src"%string]; src].

(** The condition of the generator in [apply]: the candidate is a
    directory and the recursive glob for device.c under it is not empty. *)
Definition probe (w : world) (d : string) : bool :=
  w_isdir w d &&
  match w_glob w (path_join d ["**"%string; "device.c"%string]) with
  | [] => false
  | _ :: _ => true
  end.

Definition target_dir (w : world) (src : string) : string :=
  match find (probe w) (vkd3d_dirs src) with
  | Some d => d
  | None => src
  end.

Definition cap_files (self : t) (w : world) (src : string) : list string :=
  flat_map (fun cf => _find_files self w (target_dir w src) cf) CAP_F.

(** The rule list chosen for the profile of the patcher. *)
Definition patches_of (profile : string) : list PT :=
  if String.eqb profile "high"
  then GPU_P ++ SM_P ++ WV_P ++ RB_P ++ SO_P ++ MS_P ++ RT_P ++ SF_P ++ TX_P ++ RN_P
  else GPU_P.

(** The loop over the discovered files: read, patch, write back. *)
Fixpoint patch_files (U : unicode_db) (self : t) (w : world)
         (patches : list PT) (fps : list string) : outcome unit * world :=
  match fps with
  | [] => (Ret tt, w)
  | fp :: rest =>
      match read_text w fp with
      | None => (Raise (OSError fp), w)
      | Some content =>
          match _apply_content U self content patches with
          | None => (Raise ReError, w)
          | Some content' =>
              match write_text w fp content' with
              | None => (Raise (OSError fp), w)
              | Some w' => patch_files U self w' patches rest
              end
          end
      end
  end.

Definition apply (U : unicode_db) (self : t) (w : world) (src : string)
  : outcome Z * world :=
  let files := cap_files self w src in
  let patches := patches_of (profile self) in
  match patch_files U self w patches files with
  | (Ret _, w') => (Ret 0%Z, w')
  | (Raise e, w') => (Raise e, w')
  end.

End HighPatcher.

(** ** Definitions for the proofs *)

(** Nothing below is in the source.  These definitions say what the
    compiled patterns of the rule tables match and what a rule does to a
    text; each is proved equal to the embedding above before it is used. *)

(** *** Assignment patterns *)

Definition lits (var : str) : prog := map (fun c => IOne (CChr c)) var.

Definition value_prog (g2 : bool) : prog :=
  if g2 then [IOpen 2; IPlus (CNot [c_semi]); IClose 2; IOne (CChr c_semi)]
  else [IPlus (CNot [c_semi]); IOne (CChr c_semi)].

(** The program of an assignment pattern: group 1 holds an optional [\b],
    the name, blanks, the equals sign and blanks; then come one or more
    characters other than the semicolon, and the semicolon.  [b] tells
    whether the pattern starts with [\b] and [g2] whether the value is a
    group of its own. *)
Definition asgn_prog (b g2 : bool) (var : str) : prog :=
  IOpen 1 :: (if b then [IBound] else []) ++ lits var ++
  [IStar CSpace; IOne (CChr c_eq); IStar CSpace; IClose 1] ++ value_prog g2.

Fixpoint span (p : char -> bool) (s : str) : str * str :=
  match s with
  | c :: s' =>
      if p c then let (a, b) := span p s' in (c :: a, b) else ([], s)
  | [] => ([], [])
  end.

(** The character before the position reached after reading [u]. *)
Fixpoint lastp (u : str) (prev : option char) : option char :=
  match u with
  | [] => prev
  | c :: u' => lastp u' (Some c)
  end.

Fixpoint strip (pre s : str) : option str :=
  match pre with
  | [] => Some s
  | c :: pre' =>
      match s with
      | d :: s' => if (d =? c)%N then strip pre' s' else None
      | [] => None
      end
  end.

Definition not_semi (c : char) : bool := negb (mem c [c_semi]).

(** One or more characters other than the semicolon, then the semicolon. *)
Definition value_at (s : str) : option (str * str) :=
  match s with
  | c :: s' =>
      if not_semi c then
        let (v, s5) := span not_semi s' in
        match s5 with
        | d :: rest => if (d =? c_semi)%N then Some (c :: v, rest) else None
        | [] => None
        end
      else None
  | [] => None
  end.

(** The number of semicolons of a text. *)
Definition semis (s : str) : nat := count_occ N.eq_dec s c_semi.

Section ProofModel.
Context {U : unicode_db}.

(** Blanks, then the value: the blanks go to group 1, except that the
    last one is given back when nothing else is left for the value. *)
Fixpoint tail_at (s : str) : option (str * str * str) :=
  match s with
  | c :: s' =>
      if is_space U c then
        match tail_at s' with
        | Some (ws, v, rest) => Some (c :: ws, v, rest)
        | None =>
            match value_at s with
            | Some (v, rest) => Some ([], v, rest)
            | None => None
            end
        end
      else
        match value_at s with
        | Some (v, rest) => Some ([], v, rest)
        | None => None
        end
  | [] => None
  end.

(** The match of an assignment program at one position: group 1, the
    value, and the text after the semicolon. *)
Definition asgn_match (b : bool) (var : str) (prev : option char) (s : str)
  : option (str * str * str) :=
  if b && negb (at_boundary U prev s) then None
  else
    match strip var s with
    | Some s1 =>
        let (ws1, s2) := span (is_space U) s1 in
        match s2 with
        | c :: s3 =>
            if (c =? c_eq)%N then
              match tail_at s3 with
              | Some (ws2, v, rest) => Some (var ++ ws1 ++ c_eq :: ws2, v, rest)
              | None => None
              end
            else None
        | [] => None
        end
    | None => None
    end.

Definition caps_of (g2 : bool) (g1 v : str) : caps :=
  (if g2 then [(2, v)] else []) ++ [(1, g1)].

(** The value starts with a character that is not a blank, or it is the
    single blank that the repetition before it gave back. *)
Definition vcond (v : str) : bool :=
  match v with
  | [] => false
  | c :: v' => negb (is_space U c) || match v' with [] => true | _ => false end
  end.

(** What a match of an assignment program is: the text at the position
    reads name, blanks, equals sign, blanks, value, semicolon. *)
Definition asgn_spec (b : bool) (var : str) (prev : option char)
           (s g1 v rest : str) : Prop :=
  exists ws1 ws2,
    g1 = var ++ ws1 ++ c_eq :: ws2 /\
    s = g1 ++ v ++ c_semi :: rest /\
    forallb (is_space U) ws1 = true /\
    forallb (is_space U) ws2 = true /\
    forallb not_semi v = true /\
    vcond v = true /\
    (b = true -> at_boundary U prev s = true).

(** *** Compiled rules *)

(** A rule of the tables once compiled: the assignment it looks for and
    the value it writes. *)
Record crule := {
  r_b : bool;
  r_g2 : bool;
  r_var : str;
  r_val : str
}.

Definition tpl_of (r : crule) : template :=
  TGroup 1 :: map TLit (r_val r ++ [c_semi]).

Definition rule_sub (r : crule) (prev : option char) (s : str) : str :=
  sub_scan U (asgn_prog (r_b r) (r_g2 r) (r_var r)) (tpl_of r) prev s 0.

(** The text up to a semicolon is a statement.  [hdr] is the match of the
    rule at the start of what is left of a statement, [stmt] the scan of
    the rule over the statement. *)
Definition hdr (r : crule) (prev : option char) (u : str) : option str :=
  match asgn_match (r_b r) (r_var r) prev (u ++ [c_semi]) with
  | Some (g1, _, _) => Some g1
  | None => None
  end.

Fixpoint stmt (r : crule) (prev : option char) (u : str) {struct u} : str :=
  match hdr r prev u with
  | Some g1 => g1 ++ r_val r
  | None =>
      match u with
      | [] => []
      | c :: u' => c :: stmt r (Some c) u'
      end
  end.

Definition no_eq (c : char) : bool := negb (c =? c_eq)%N.

(** An ASCII character that is not a blank. *)
Definition plain (c : char) : bool := (c <? 128)%N && negb (ascii_space c).

(** The name ends with a plain character, the value starts with one, and
    neither holds an equals sign or a semicolon. *)
Definition wf_rule (r : crule) : bool :=
  match rev (r_var r) with c :: _ => plain c | [] => false end &&
  forallb not_semi (r_var r) && forallb no_eq (r_var r) &&
  match r_val r with c :: _ => plain c | [] => false end &&
  forallb not_semi (r_val r) && forallb no_eq (r_val r).

Fixpoint str_eqb (a b : str) : bool :=
  match a, b with
  | [], [] => true
  | x :: a', y :: b' => (x =? y)%N && str_eqb a' b'
  | _, _ => false
  end.

Fixpoint suffixb (x y : str) : bool :=
  str_eqb x y ||
  match y with
  | [] => false
  | _ :: y' => suffixb x y'
  end.

(** Two rules are independent when neither name ends with the other. *)
Definition independent (r1 r2 : crule) : bool :=
  negb (suffixb (r_var r1) (r_var r2)) && negb (suffixb (r_var r2) (r_var r1)).

Definition rules_sub (rs : list crule) (s : str) : str :=
  fold_left (fun c r => rule_sub r None c) rs s.

Fixpoint all_independent (rs : list crule) : bool :=
  match rs with
  | [] => true
  | r :: rs' => forallb (independent r) rs' && all_independent rs'
  end.

(** *** The file pass *)

(** A file the system lets the patcher read and write. *)
Definition usable (w : world) (fp : string) : bool :=
  match file_at fp (w_files w) with
  | Some f => f_readable f && f_writable f
  | None => false
  end.

(** A file the system lets the patcher read but not write. *)
Definition read_only (w : world) (fp : string) : bool :=
  match file_at fp (w_files w) with
  | Some f => f_readable f && negb (f_writable f)
  | None => false
  end.

(** The recursive glob under each candidate directory returns paths that
    start with that directory. *)
Definition glob_under (w : world) (src : string) : bool :=
  forallb (fun d =>
             forallb (String.prefix d)
                     (w_glob w (path_join d ["**"%string; "device.c"%string])))
          (HighPatcher.vkd3d_dirs src).

Definition with_text (f : file) (txt : str) : file :=
  {| f_text := txt; f_readable := f_readable f; f_writable := f_writable f |}.

(** The state of the files after the loop has gone through [fps]: each
    file of [fps] holds its patched text, every other file is as before. *)
Definition patched (rs : list crule) (fps : list string) (w w' : world) : Prop :=
  w_isdir w' = w_isdir w /\ w_glob w' = w_glob w /\
  w_writes w' = w_writes w ++ fps /\
  forall q,
    file_at q (w_files w') =
    match file_at q (w_files w) with
    | Some f =>
        Some (if in_dec string_dec q fps
              then with_text f (rules_sub rs (f_text f)) else f)
    | None => None
    end.

End ProofModel.

(** *** Reading the rule tables *)

Definition cset_eq_dec (x y : cset) : {x = y} + {x <> y}.
Proof.
  decide equality; try apply N.eq_dec; apply (list_eq_dec N.eq_dec).
Defined.

Definition instr_eq_dec (x y : instr) : {x = y} + {x <> y}.
Proof.
  decide equality; try apply cset_eq_dec; apply Nat.eq_dec.
Defined.

Definition titem_eq_dec (x y : titem) : {x = y} + {x <> y}.
Proof.
  decide equality; [apply N.eq_dec | apply Nat.eq_dec].
Defined.

Fixpoint lit_run (p : prog) : str :=
  match p with
  | IOne (CChr c) :: p' => c :: lit_run p'
  | _ => []
  end.

Fixpoint tlit_run (t : template) : str :=
  match t with
  | TLit c :: t' => c :: tlit_run t'
  | _ => []
  end.

(** The name a compiled pattern looks for and the value a template
    writes, when they have the shape of an assignment rule. *)
Definition shape_of (p : prog) (t : template) : option crule :=
  let var :=
    match p with
    | IOpen _ :: IBound :: p' => lit_run p'
    | IOpen _ :: p' => lit_run p'
    | _ => []
    end in
  let val :=
    match t with
    | TGroup _ :: t' => removelast (tlit_run t')
    | _ => []
    end in
  find (fun r =>
          if list_eq_dec instr_eq_dec p (asgn_prog (r_b r) (r_g2 r) (r_var r))
          then if list_eq_dec titem_eq_dec t (tpl_of r) then true else false
          else false)
       [ {| r_b := true; r_g2 := true; r_var := var; r_val := val |};
         {| r_b := true; r_g2 := false; r_var := var; r_val := val |};
         {| r_b := false; r_g2 := true; r_var := var; r_val := val |};
         {| r_b := false; r_g2 := false; r_var := var; r_val := val |} ].

Definition decode (pt : PT) : option crule :=
  let '(pattern, repl, _) := pt in
  match re_compile pattern with
  | Some (p, groups) =>
      match parse_template groups repl with
      | Some t => shape_of p t
      | None => None
      end
  | None => None
  end.

Fixpoint decode_all (pts : list PT) : option (list crule) :=
  match pts with
  | [] => Some []
  | pt :: pts' =>
      match decode pt, decode_all pts' with
      | Some r, Some rs => Some (r :: rs)
      | _, _ => None
      end
  end.

(** The rules of a table are assignment rules, well formed and pairwise
    independent. *)
Definition checked (pts : list PT) : bool :=
  match decode_all pts with
  | Some rs => forallb wf_rule rs && all_independent rs
  | None => false
  end.

(** ** Sample worlds *)

(** A Unicode database in which no code point above ASCII is a blank or
    alphanumeric; the samples below are ASCII. *)
Definition ascii_db : unicode_db :=
  {| uni_isspace := fun _ => false; uni_isalnum := fun _ => false |}.

Definition high_patcher : HighPatcher.t :=
  {| HighPatcher.profile := HighPatcher.default_profile |}.

Definition plain_file (txt : str) : file :=
  {| f_text := txt; f_readable := true; f_writable := true |}.

Definition locked_file (txt : str) : file :=
  {| f_text := txt; f_readable := false; f_writable := false |}.

(** A tree [proj] whose directory [proj/src] holds the listed files; the
    recursive glob for device.c under [proj/src] returns [found]. *)
Definition src_world (found : list string) (fs : list (string * file)) : world :=
  {| w_isdir := fun d => String.eqb d "proj" || String.eqb d "proj/src";
     w_glob := fun pat =>
                 if String.eqb pat "proj/src/**/device.c" then found else [];
     w_files := fs;
     w_writes := [] |}.

(** One device.c that already holds the target value. *)
Definition world_settled : world :=
  src_world ["proj/src/device.c"%string]
            [("proj/src/device.c"%string,
              plain_file (py "adapter_id.vendor_id = 0x1002;"))].

(** One device.c with another vendor. *)
Definition world_stale : world :=
  src_world ["proj/src/device.c"%string]
            [("proj/src/device.c"%string,
              plain_file (py "adapter_id.vendor_id = 0x10DE;"))].

(** Two device.c files, the first of which cannot be opened. *)
Definition world_locked : world :=
  src_world ["proj/src/a/device.c"%string; "proj/src/b/device.c"%string]
            [("proj/src/a/device.c"%string,
              locked_file (py "adapter_id.vendor_id = 0x10DE;"));
             ("proj/src/b/device.c"%string,
              plain_file (py "adapter_id.vendor_id = 0x10DE;"))].

(** Three device.c files, the second of which cannot be opened. *)
Definition world_locked_second : world :=
  src_world ["proj/src/a/device.c"%string; "proj/src/b/device.c"%string;
             "proj/src/c/device.c"%string]
            [("proj/src/a/device.c"%string,
              plain_file (py "adapter_id.vendor_id = 0x10DE;"));
             ("proj/src/b/device.c"%string,
              locked_file (py "adapter_id.vendor_id = 0x10DE;"));
             ("proj/src/c/device.c"%string,
              plain_file (py "adapter_id.vendor_id = 0x10DE;"))].

(** A device.c under a directory whose name only contains an excluded
    name. *)
Definition world_contests : world :=
  src_world ["proj/src/contests/device.c"%string]
            [("proj/src/contests/device.c"%string,
              plain_file (py "adapter_id.vendor_id = 0x10DE;"))].

(** The files of [w] whose text differs in [w']. *)
Definition changed_files (w w' : world) : list string :=
  map fst
      (filter (fun pf =>
                 match file_at (fst pf) (w_files w') with
                 | Some f' => negb (str_eqb (f_text (snd pf)) (f_text f'))
                 | None => true
                 end)
              (w_files w)).

(** A path lies under a directory of the given name. *)
Definition under_dir (name p : string) : Prop :=
  In name (removelast (segments p)).

Definition low_patcher : HighPatcher.t := {| HighPatcher.profile := "low" |}.

(** Two device.c files, one of them under a tests directory. *)
Definition world_tests : world :=
  src_world ["proj/src/tests/device.c"%string; "proj/src/device.c"%string]
            [("proj/src/tests/device.c"%string,
              plain_file (py "adapter_id.vendor_id = 0x10DE;"));
             ("proj/src/device.c"%string,
              plain_file (py "adapter_id.vendor_id = 0x10DE;"))].

Definition readonly_file (txt : str) : file :=
  {| f_text := txt; f_readable := true; f_writable := false |}.

(** Three device.c files, the second of which is write protected. *)
Definition world_readonly : world :=
  src_world ["proj/src/a/device.c"%string; "proj/src/b/device.c"%string;
             "proj/src/c/device.c"%string]
            [("proj/src/a/device.c"%string,
              plain_file (py "adapter_id.vendor_id = 0x10DE;"));
             ("proj/src/b/device.c"%string,
              readonly_file (py "adapter_id.vendor_id = 0x10DE;"));
             ("proj/src/c/device.c"%string,
              plain_file (py "adapter_id.vendor_id = 0x10DE;"))].

(** A checkout that lies below a directory named tests. *)
Definition world_nested : world :=
  {| w_isdir := fun d => String.eqb d "ci/tests/proj" ||
                         String.eqb d "ci/tests/proj/src";
     w_glob := fun pat =>
                 if String.eqb pat "ci/tests/proj/src/**/device.c"
                 then ["ci/tests/proj/src/device.c"%string] else [];
     w_files := [("ci/tests/proj/src/device.c"%string,
                  plain_file (py "adapter_id.vendor_id = 0x10DE;"))];
     w_writes := [] |}.

(** A tree whose first candidate directory holds device.c only under a
    tests directory, while the second candidate holds one that is not
    excluded. *)
Definition world_probe : world :=
  {| w_isdir := fun d => String.eqb d "proj" || String.eqb d "proj/libs/vkd3d" ||
                         String.eqb d "proj/src";
     w_glob := fun pat =>
                 if String.eqb pat "proj/libs/vkd3d/**/device.c"
                 then ["proj/libs/vkd3d/tests/device.c"%string]
                 else if String.eqb pat "proj/src/**/device.c"
                      then ["proj/src/device.c"%string] else [];
     w_files := [("proj/libs/vkd3d/tests/device.c"%string,
                  plain_file (py "adapter_id.vendor_id = 0x10DE;"));
                 ("proj/src/device.c"%string,
                  plain_file (py "adapter_id.vendor_id = 0x10DE;"))];
     w_writes := [] |}.

(** The compiled rules of profile high, and the first of them. *)
Definition high_rules : list crule :=
  match decode_all (HighPatcher.patches_of "high") with
  | Some rs => rs
  | None => []
  end.

Definition vendor_rule : crule :=
  {| r_b := true; r_g2 := true;
     r_var := py "adapter_id.vendor_id"; r_val := py "0x1002" |}.

(** ** Compiling the patterns *)

Lemma pfold_app (st : pstate) (a b : str) :
  pfold st (a ++ b) =
  match pfold st a with
  | Some st' => pfold st' b
  | None => None
  end.
Proof.
  revert st; induction a as [|c a IH]; intros st; simpl; [reflexivity|].
  destruct (pstep st c); [apply IH | reflexivity].
Qed.

Lemma mem_false (c : char) (l : list char) :
  mem c l = false -> forall d, In d l -> (c =? d)%N = false.
Proof.
  induction l as [|x l IH]; simpl; intros H d Hd; [contradiction|].
  apply orb_false_iff in H; destruct H as [H1 H2].
  destruct Hd as [->|Hd]; auto.
Qed.

Lemma mem_true (c : char) (l : list char) : mem c l = true -> In c l.
Proof.
  induction l as [|x l IH]; simpl; intros H; [discriminate|].
  apply orb_true_iff in H; destruct H as [H|H].
  - left; symmetry; now apply N.eqb_eq.
  - right; auto.
Qed.

(** An escaped character compiles to its literal. *)
Lemma pstep_escaped (code : list instr) (op : list nat) (g : nat) (c : char) :
  mem c special_chars = true ->
  pfold {| ps_code := code; ps_open := op; ps_groups := g; ps_mode := PNormal |}
        [c_bslash; c] =
  Some {| ps_code := IOne (CChr c) :: code; ps_open := op; ps_groups := g;
          ps_mode := PNormal |}.
Proof.
  intros H; apply mem_true in H.
  repeat (destruct H as [<-|H]; [reflexivity|]).
  contradiction.
Qed.

(** A character that [re.escape] leaves alone compiles to its literal. *)
Lemma pstep_plain (code : list instr) (op : list nat) (g : nat) (c : char) :
  mem c special_chars = false ->
  pstep {| ps_code := code; ps_open := op; ps_groups := g; ps_mode := PNormal |} c =
  Some {| ps_code := IOne (CChr c) :: code; ps_open := op; ps_groups := g;
          ps_mode := PNormal |}.
Proof.
  intros H.
  pose proof (mem_false _ _ H) as Hd.
  unfold pstep; cbn [ps_mode ps_code ps_open ps_groups].
  rewrite !Hd by (vm_compute; tauto).
  assert (Hm : mem c (py ".^$?{|") = false).
  { destruct (mem c (py ".^$?{|")) eqn:E; [|reflexivity].
    apply mem_true in E. rewrite <- (Hd c); [symmetry; apply N.eqb_refl|].
    repeat (destruct E as [<-|E]; [vm_compute; tauto|]). contradiction. }
  rewrite Hm. reflexivity.
Qed.

Lemma pfold_escape (var : str) (code : list instr) (op : list nat) (g : nat) :
  pfold {| ps_code := code; ps_open := op; ps_groups := g; ps_mode := PNormal |}
        (re_escape var) =
  Some {| ps_code := rev (lits var) ++ code; ps_open := op; ps_groups := g;
          ps_mode := PNormal |}.
Proof.
  revert code; induction var as [|c var IH]; intros code; [reflexivity|].
  cbn [re_escape lits map rev].
  destruct (mem c special_chars) eqn:E.
  - change (c_bslash :: c :: re_escape var) with ([c_bslash; c] ++ re_escape var).
    rewrite pfold_app, pstep_escaped by assumption.
    fold (lits var). rewrite IH, <- app_assoc. reflexivity.
  - cbn [pfold]. rewrite pstep_plain by assumption.
    fold (lits var). rewrite IH, <- app_assoc. reflexivity.
Qed.

(** Whatever the variable name, [mk_asgn] compiles, and to the program
    that matches the name character by character. *)
Lemma compile_mk_asgn (var : str) :
  re_compile (mk_asgn var) = Some (asgn_prog true true var, 2).
Proof.
  unfold re_compile, mk_asgn.
  rewrite pfold_app.
  change (pfold pstart (py "(\b")) with
    (Some {| ps_code := [IBound; IOpen 1]; ps_open := [1]; ps_groups := 1;
             ps_mode := PNormal |}).
  cbv iota beta.
  rewrite pfold_app, pfold_escape.
  cbv iota beta.
  cbn.
  unfold asgn_prog, value_prog.
  rewrite !rev_app_distr, rev_involutive.
  cbn [rev app]. rewrite <- !app_assoc. reflexivity.
Qed.

(** *** What an assignment program matches *)

Section Assignment.
Context {U : unicode_db}.

Lemma space_not_eq (c : char) : is_space U c = true -> (c =? c_eq)%N = false.
Proof.
  intros H. destruct (N.eqb_spec c c_eq) as [->|]; [discriminate H | reflexivity].
Qed.

Lemma space_not_semi (c : char) : is_space U c = true -> not_semi c = true.
Proof.
  intros H. unfold not_semi; simpl. rewrite orb_false_r.
  destruct (N.eqb_spec c c_semi) as [->|]; [discriminate H | reflexivity].
Qed.

Lemma not_semi_neq (c : char) : not_semi c = true -> (c =? c_semi)%N = false.
Proof.
  unfold not_semi; simpl. rewrite orb_false_r. now intros H%negb_true_iff.
Qed.

Lemma not_semi_false (c : char) : not_semi c = false -> c = c_semi.
Proof.
  unfold not_semi; simpl. rewrite orb_false_r.
  intros H%negb_false_iff. now apply N.eqb_eq.
Qed.

Lemma span_app (p : char -> bool) (s : str) :
  fst (span p s) ++ snd (span p s) = s.
Proof.
  induction s as [|c s IH]; simpl; [reflexivity|].
  destruct (p c); [|reflexivity].
  destruct (span p s) as [a b]; simpl in *. now rewrite IH.
Qed.

Lemma span_all (p : char -> bool) (s : str) : forallb p (fst (span p s)) = true.
Proof.
  induction s as [|c s IH]; simpl; [reflexivity|].
  destruct (p c) eqn:E; [|reflexivity].
  destruct (span p s) as [a b]; simpl in *. now rewrite E.
Qed.

Lemma span_stop (p : char -> bool) (s : str) :
  match snd (span p s) with
  | c :: _ => p c = false
  | [] => True
  end.
Proof.
  induction s as [|c s IH]; simpl; [exact I|].
  destruct (p c) eqn:E; [|exact E].
  destruct (span p s) as [a b]; simpl in *. exact IH.
Qed.

(** [span] of a run of accepted characters followed by a refused one. *)
Lemma span_run (p : char -> bool) (a : str) (c : char) (r : str) :
  forallb p a = true -> p c = false -> span p (a ++ c :: r) = (a, c :: r).
Proof.
  intros Ha Hc. induction a as [|x a IH]; simpl.
  - now rewrite Hc.
  - simpl in Ha. apply andb_true_iff in Ha. destruct Ha as [Hx Ha].
    rewrite Hx, IH by assumption. reflexivity.
Qed.

Lemma firstn_suffix (a b : str) : firstn (length (a ++ b) - length b) (a ++ b) = a.
Proof.
  rewrite length_app, Nat.add_sub. rewrite firstn_app, Nat.sub_diag, firstn_all.
  simpl. apply app_nil_r.
Qed.

(** A greedy repetition followed by something that fails on every
    character of the repetition never gives anything back. *)
Lemma star_commit (R : Type) (p : char -> bool)
      (k : option char -> str -> option R) :
  (forall prev c s, p c = true -> k prev (c :: s) = None) ->
  forall prev s,
    star p k prev s = k (lastp (fst (span p s)) prev) (snd (span p s)).
Proof.
  intros Hk prev s; revert prev.
  induction s as [|c s IH]; intros prev; simpl; [reflexivity|].
  destruct (p c) eqn:E; [|reflexivity].
  rewrite IH. destruct (span p s) as [a b]; simpl.
  destruct (k (lastp a (Some c)) b) eqn:Ek; [reflexivity|].
  now apply Hk.
Qed.

Lemma run_lits (var : str) (p : prog) prev s marks cs :
  run U (lits var ++ p) prev s marks cs =
  match strip var s with
  | Some s1 => run U p (lastp var prev) s1 marks cs
  | None => None
  end.
Proof.
  revert prev s; induction var as [|c var IH]; intros prev s; [reflexivity|].
  cbn [lits map app run strip lastp in_cset].
  destruct s as [|d s]; [reflexivity|].
  destruct (d =? c)%N eqn:E; [|reflexivity].
  apply N.eqb_eq in E; subst d. apply IH.
Qed.

Lemma run_value (g2 : bool) prev s marks cs :
  run U (value_prog g2) prev s marks cs =
  match value_at s with
  | Some (v, rest) => Some ((if g2 then [(2, v)] else []) ++ cs, rest)
  | None => None
  end.
Proof.
  unfold value_at.
  destruct g2; cbn [value_prog run];
    change (in_cset U (CNot [c_semi])) with not_semi;
    (destruct s as [|c s']; [reflexivity|]);
    (destruct (not_semi c) eqn:Ec; [|reflexivity]).
  - rewrite star_commit.
    + pose proof (span_app not_semi s') as Happ.
      destruct (span not_semi s') as [v s5]; simpl in Happ.
      cbn [fst snd lookup Nat.eqb run in_cset].
      destruct s5 as [|d rest]; [reflexivity|].
      destruct (d =? c_semi)%N; [|reflexivity].
      subst s'. change (c :: v ++ d :: rest) with ((c :: v) ++ d :: rest).
      rewrite firstn_suffix. reflexivity.
    + intros prev' d x Hd. cbn [run lookup Nat.eqb in_cset].
      now rewrite (not_semi_neq _ Hd).
  - rewrite star_commit.
    + destruct (span not_semi s') as [v s5]. cbn [fst snd run in_cset].
      destruct s5 as [|d rest]; [reflexivity|].
      destruct (d =? c_semi)%N; reflexivity.
    + intros prev' d x Hd. cbn [run in_cset].
      now rewrite (not_semi_neq _ Hd).
Qed.

Lemma strip_app (pre s s1 : str) : strip pre s = Some s1 -> s = pre ++ s1.
Proof.
  revert s; induction pre as [|c pre IH]; intros s; simpl.
  - now intros [= ->].
  - destruct s as [|d s]; [discriminate|].
    destruct (N.eqb_spec d c) as [->|]; [|discriminate].
    intros H. now rewrite (IH _ H).
Qed.

Lemma strip_pre (pre s1 : str) : strip pre (pre ++ s1) = Some s1.
Proof.
  induction pre as [|c pre IH]; simpl; [reflexivity|].
  now rewrite N.eqb_refl.
Qed.

(** The blanks after the equals sign, the end of group 1 and the value. *)
Lemma run_tail (g2 : bool) (s3 : str) :
  forall pre prev,
    star (is_space U)
         (fun p' s' => run U (IClose 1 :: value_prog g2) p' s' [(1, pre ++ s3)] [])
         prev s3 =
    match tail_at s3 with
    | Some (ws2, v, rest) => Some (caps_of g2 (pre ++ ws2) v, rest)
    | None => None
    end.
Proof.
  assert (Hk : forall pre s prev,
             run U (IClose 1 :: value_prog g2) prev s [(1, pre ++ s)] [] =
             match value_at s with
             | Some (v, rest) => Some (caps_of g2 (pre ++ []) v, rest)
             | None => None
             end).
  { intros pre s prev. cbn [run lookup Nat.eqb].
    rewrite firstn_suffix, run_value, app_nil_r. reflexivity. }
  induction s3 as [|c s3 IH]; intros pre prev.
  - cbn [star tail_at]. rewrite Hk. reflexivity.
  - cbn [star tail_at].
    destruct (is_space U c) eqn:Ec.
    + specialize (IH (pre ++ [c]) (Some c)).
      rewrite <- app_assoc in IH. cbn [app] in IH. rewrite IH.
      destruct (tail_at s3) as [[[ws2 v] rest]|].
      * rewrite <- app_assoc. reflexivity.
      * rewrite Hk. destruct (value_at (c :: s3)) as [[v rest]|]; reflexivity.
    + rewrite Hk. destruct (value_at (c :: s3)) as [[v rest]|]; reflexivity.
Qed.

(** The whole program, at one position. *)
Lemma re_match_asgn (b g2 : bool) (var : str) prev s :
  re_match U (asgn_prog b g2 var) prev s =
  match asgn_match b var prev s with
  | Some (g1, v, rest) => Some (caps_of g2 g1 v, rest)
  | None => None
  end.
Proof.
  unfold re_match, asgn_prog, asgn_match. cbn [run].
  assert (Hgo : run U (lits var ++
                   [IStar CSpace; IOne (CChr c_eq); IStar CSpace; IClose 1] ++
                   value_prog g2) prev s [(1, s)] [] =
          match
            match strip var s with
            | Some s1 =>
                let (ws1, s2) := span (is_space U) s1 in
                match s2 with
                | [] => None
                | c :: s3 =>
                    if (c =? c_eq)%N
                    then
                      match tail_at s3 with
                      | Some (ws2, v, rest) => Some (var ++ ws1 ++ c_eq :: ws2, v, rest)
                      | None => None
                      end
                    else None
                end
            | None => None
            end
          with
          | Some (g1, v, rest) => Some (caps_of g2 g1 v, rest)
          | None => None
          end).
  { rewrite run_lits.
    destruct (strip var s) as [s1|] eqn:Es; [|reflexivity].
    apply strip_app in Es.
    cbn [app run]. change (in_cset U CSpace) with (is_space U).
    rewrite star_commit.
    - pose proof (span_app (is_space U) s1) as Happ.
      destruct (span (is_space U) s1) as [ws1 s2]; cbn [fst snd] in *.
      destruct s2 as [|c s3]; [reflexivity|].
      cbn [run in_cset].
      destruct (N.eqb_spec c c_eq) as [->|]; [|reflexivity].
      change (in_cset U CSpace) with (is_space U).
      assert (Hs : s = (var ++ ws1 ++ [c_eq]) ++ s3).
      { rewrite Es, <- Happ, <- !app_assoc. reflexivity. }
      rewrite Hs.
      etransitivity; [exact (run_tail g2 s3 (var ++ ws1 ++ [c_eq]) (Some c_eq))|].
      destruct (tail_at s3) as [[[ws2 v] rest]|]; [|reflexivity].
      rewrite <- !app_assoc. reflexivity.
    - intros prev' c x Hc. cbn [run in_cset]. now rewrite space_not_eq. }
  destruct b; cbn [andb app run].
  - destruct (at_boundary U prev s); cbn [negb]; [exact Hgo | reflexivity].
  - exact Hgo.
Qed.

(** *** The match as a decomposition of the text *)

Lemma value_at_some (s v rest : str) :
  value_at s = Some (v, rest) ->
  s = v ++ c_semi :: rest /\ v <> [] /\ forallb not_semi v = true.
Proof.
  unfold value_at. destruct s as [|c s']; [discriminate|].
  destruct (not_semi c) eqn:Ec; [|discriminate].
  pose proof (span_app not_semi s') as Happ.
  pose proof (span_all not_semi s') as Hall.
  destruct (span not_semi s') as [v' s5]; cbn [fst snd] in *.
  destruct s5 as [|d r]; [discriminate|].
  destruct (N.eqb_spec d c_semi) as [->|]; [|discriminate].
  intros [= <- <-]. repeat split.
  - now rewrite <- Happ.
  - discriminate.
  - simpl. now rewrite Ec, Hall.
Qed.

Lemma value_at_complete (v rest : str) :
  v <> [] -> forallb not_semi v = true ->
  value_at (v ++ c_semi :: rest) = Some (v, rest).
Proof.
  intros Hv Hall. destruct v as [|c v]; [contradiction|].
  simpl in Hall. apply andb_true_iff in Hall. destruct Hall as [Hc Hall].
  cbn [value_at app]. rewrite Hc, (span_run not_semi v c_semi rest Hall eq_refl).
  now rewrite N.eqb_refl.
Qed.

Lemma value_at_semi (rest : str) : value_at (c_semi :: rest) = None.
Proof. reflexivity. Qed.

Lemma tail_at_some (s ws v rest : str) :
  tail_at s = Some (ws, v, rest) ->
  s = ws ++ v ++ c_semi :: rest /\ forallb (is_space U) ws = true /\
  forallb not_semi v = true /\ vcond v = true.
Proof.
  revert ws; induction s as [|c s IH]; intros ws; cbn [tail_at]; [discriminate|].
  assert (Hval : forall ws',
             match value_at (c :: s) with
             | Some (v0, rest0) => Some ([], v0, rest0)
             | None => None
             end = Some (ws', v, rest) ->
             (is_space U c = false \/ tail_at s = None) ->
             c :: s = ws' ++ v ++ c_semi :: rest /\
             forallb (is_space U) ws' = true /\
             forallb not_semi v = true /\ vcond v = true).
  { intros ws' H Hc.
    destruct (value_at (c :: s)) as [[v0 rest0]|] eqn:Ev; [|discriminate].
    injection H as <- <- <-.
    apply value_at_some in Ev. destruct Ev as (Hs & Hne & Hall).
    repeat split; try assumption.
    destruct v0 as [|d v0]; [contradiction|].
    injection Hs as <- Hs. cbn [vcond].
    destruct Hc as [Hc|Hc]; [now rewrite Hc|].
    destruct v0 as [|e v0]; [apply orb_true_r|].
    exfalso. subst s. cbn [tail_at app] in Hc.
    simpl in Hall. apply andb_true_iff in Hall. destruct Hall as [_ Hall].
    assert (Hv : value_at ((e :: v0) ++ c_semi :: rest0) = Some (e :: v0, rest0))
      by (apply value_at_complete; [discriminate | exact Hall]).
    cbn [app] in Hv. rewrite Hv in Hc.
    destruct (is_space U e); [|discriminate].
    destruct (tail_at (v0 ++ c_semi :: rest0)) as [[[? ?] ?]|]; discriminate. }
  destruct (is_space U c) eqn:Ec.
  - destruct (tail_at s) as [[[ws0 v0] rest0]|] eqn:Et.
    + intros [= <- <- <-].
      destruct (IH _ eq_refl) as (Hs & Hws & Hall & Hv).
      repeat split; try assumption.
      * now rewrite Hs.
      * simpl. now rewrite Ec.
    + intros H. apply Hval; [exact H | now right].
  - intros H. apply Hval; [exact H | now left].
Qed.

Lemma tail_at_complete (ws v rest : str) :
  forallb (is_space U) ws = true -> forallb not_semi v = true ->
  vcond v = true ->
  tail_at (ws ++ v ++ c_semi :: rest) = Some (ws, v, rest).
Proof.
  intros Hws Hall Hv.
  assert (Hne : v <> []) by (destruct v; [discriminate | discriminate]).
  induction ws as [|w ws IH].
  - cbn [app]. destruct v as [|c v]; [contradiction|].
    pose proof (value_at_complete rest Hne Hall) as Hval.
    cbn [app] in Hval |- *. cbn [tail_at]. rewrite Hval.
    destruct (is_space U c) eqn:Ec; [|reflexivity].
    cbn [vcond] in Hv. rewrite Ec in Hv. cbn [negb orb] in Hv.
    destruct v as [|d v]; [|discriminate].
    cbn [app tail_at]. rewrite value_at_semi.
    now replace (is_space U c_semi) with false by reflexivity.
  - simpl in Hws. apply andb_true_iff in Hws. destruct Hws as [Hw Hws].
    cbn [app tail_at]. rewrite Hw, (IH Hws). reflexivity.
Qed.

(** A text that is not empty and has no semicolon always splits into
    leading blanks and a value. *)
Lemma tail_at_progress (y rest : str) :
  y <> [] -> forallb not_semi y = true ->
  exists ws v, tail_at (y ++ c_semi :: rest) = Some (ws, v, rest) /\ y = ws ++ v.
Proof.
  intros Hne Hall.
  pose proof (span_app (is_space U) y) as Happ.
  pose proof (span_all (is_space U) y) as Hsp.
  pose proof (span_stop (is_space U) y) as Hstop.
  destruct (span (is_space U) y) as [ws v]; cbn [fst snd] in *.
  destruct v as [|c v].
  - rewrite app_nil_r in Happ. subst ws.
    destruct (exists_last Hne) as (ws' & w & ->).
    rewrite forallb_app in Hsp. apply andb_true_iff in Hsp.
    destruct Hsp as [Hws' Hw]. simpl in Hw. rewrite andb_true_r in Hw.
    exists ws', [w]. split; [|reflexivity].
    rewrite <- app_assoc. apply tail_at_complete; try assumption.
    + simpl. now rewrite space_not_semi.
    + cbn [vcond]. apply orb_true_r.
  - exists ws, (c :: v). split; [|now symmetry].
    rewrite <- Happ, <- app_assoc. apply tail_at_complete; try assumption.
    + rewrite <- Happ, forallb_app in Hall. now apply andb_true_iff in Hall.
    + cbn [vcond]. now rewrite Hstop.
Qed.

(** A text splits in one way only at the first character that a
    predicate refuses. *)
Lemma first_split (p : char -> bool) (d : char) (a b a' b' : str) :
  forallb p a = true -> forallb p a' = true -> p d = false ->
  a ++ d :: b = a' ++ d :: b' -> a = a' /\ b = b'.
Proof.
  intros Ha Ha' Hd E.
  pose proof (span_run p a d b Ha Hd) as H1.
  pose proof (span_run p a' d b' Ha' Hd) as H2.
  rewrite E, H2 in H1. injection H1 as -> ->. now split.
Qed.

Lemma asgn_match_iff (b : bool) (var : str) prev s g1 v rest :
  asgn_match b var prev s = Some (g1, v, rest) <-> asgn_spec b var prev s g1 v rest.
Proof.
  unfold asgn_match, asgn_spec. split.
  - intros H.
    destruct (b && negb (at_boundary U prev s)) eqn:Eb; [discriminate|].
    destruct (strip var s) as [s1|] eqn:Es; [|discriminate].
    apply strip_app in Es.
    pose proof (span_app (is_space U) s1) as Happ.
    pose proof (span_all (is_space U) s1) as Hsp.
    destruct (span (is_space U) s1) as [ws1 s2]; cbn [fst snd] in *.
    destruct s2 as [|c s3]; [discriminate|].
    destruct (N.eqb_spec c c_eq) as [->|]; [|discriminate].
    destruct (tail_at s3) as [[[ws2 v0] rest0]|] eqn:Et; [|discriminate].
    injection H as <- <- <-.
    apply tail_at_some in Et. destruct Et as (Hs3 & Hws2 & Hall & Hv).
    exists ws1, ws2. repeat split; try assumption.
    + rewrite Es, <- Happ, Hs3, <- !app_assoc. reflexivity.
    + intros ->. cbn [andb] in Eb. now apply negb_false_iff in Eb.
  - intros (ws1 & ws2 & -> & -> & Hws1 & Hws2 & Hall & Hv & Hb).
    assert (Eb : b && negb (at_boundary U prev
                   ((var ++ ws1 ++ c_eq :: ws2) ++ v ++ c_semi :: rest)) = false).
    { destruct b; [|reflexivity]. cbn [andb]. now rewrite Hb. }
    rewrite Eb. rewrite <- !app_assoc, strip_pre.
    cbn [app]. rewrite (span_run (is_space U) ws1 c_eq _ Hws1 eq_refl).
    rewrite N.eqb_refl, tail_at_complete by assumption. reflexivity.
Qed.

(** *** One rule over a whole text *)

Lemma expand_lits (x : str) (cs : caps) : expand (map TLit x) cs = x.
Proof. induction x as [|c x IH]; simpl; [reflexivity | now rewrite IH]. Qed.

Lemma expand_tpl_of (r : crule) (g2 : bool) (g1 v : str) :
  expand (tpl_of r) (caps_of g2 g1 v) = g1 ++ r_val r ++ [c_semi].
Proof.
  unfold tpl_of. cbn [expand]. rewrite expand_lits.
  destruct g2; reflexivity.
Qed.

Lemma lastp_snoc (u : str) (d : char) prev : lastp (u ++ [d]) prev = Some d.
Proof. revert prev; induction u as [|c u IH]; intros prev; simpl; auto. Qed.

Lemma sub_scan_skip (p : prog) (t : template) (u r : str) prev :
  sub_scan U p t prev (u ++ r) (length u) = sub_scan U p t (lastp u prev) r 0.
Proof.
  revert prev; induction u as [|c u IH]; intros prev; [reflexivity|].
  cbn [app length sub_scan lastp]. apply IH.
Qed.

(** The scan, one step at a time: a match is rewritten and the scan goes
    on after its semicolon; otherwise one character is copied. *)
Lemma rule_sub_eq (r : crule) prev s :
  rule_sub r prev s =
  match asgn_match (r_b r) (r_var r) prev s with
  | Some (g1, v, rest) =>
      g1 ++ r_val r ++ c_semi :: rule_sub r (Some c_semi) rest
  | None =>
      match s with
      | [] => []
      | c :: s' => c :: rule_sub r (Some c) s'
      end
  end.
Proof.
  unfold rule_sub.
  destruct (asgn_match (r_b r) (r_var r) prev s) as [[[g1 v] rest]|] eqn:E.
  - pose proof E as Espec. apply asgn_match_iff in Espec.
    destruct Espec as (ws1 & ws2 & Hg1 & Hs & _).
    assert (Hm : exists c m', g1 ++ v ++ [c_semi] = c :: m').
    { rewrite Hg1. destruct (r_var r); [destruct ws1|]; cbn; eauto. }
    destruct Hm as (c & m' & Hm).
    assert (Hs' : s = c :: m' ++ rest).
    { rewrite Hs. change (c :: m' ++ rest) with ((c :: m') ++ rest).
      rewrite <- Hm, <- !app_assoc. reflexivity. }
    rewrite Hs' in E |- *. cbn [sub_scan]. rewrite re_match_asgn, E.
    rewrite expand_tpl_of.
    change (c :: m' ++ rest) with ((c :: m') ++ rest).
    rewrite length_app, Nat.add_sub. cbn [length].
    rewrite sub_scan_skip.
    replace (lastp m' (Some c)) with (lastp (c :: m') prev) by reflexivity.
    rewrite <- Hm, (app_assoc g1 v [c_semi]), lastp_snoc, <- !app_assoc. reflexivity.
  - destruct s as [|c s']; cbn [sub_scan]; rewrite re_match_asgn, E; reflexivity.
Qed.

(** *** One rule over one statement *)

Lemma stmt_eq (r : crule) prev u :
  stmt r prev u =
  match hdr r prev u with
  | Some g1 => g1 ++ r_val r
  | None =>
      match u with
      | [] => []
      | c :: u' => c :: stmt r (Some c) u'
      end
  end.
Proof. destruct u; reflexivity. Qed.

Lemma spaces_not_semi (ws : str) :
  forallb (is_space U) ws = true -> forallb not_semi ws = true.
Proof.
  induction ws as [|w ws IH]; simpl; [reflexivity|].
  intros H. apply andb_true_iff in H. destruct H as [Hw H].
  now rewrite space_not_semi, IH.
Qed.

Lemma spaces_no_eq (ws : str) :
  forallb (is_space U) ws = true -> forallb no_eq ws = true.
Proof.
  induction ws as [|w ws IH]; simpl; [reflexivity|].
  intros H. apply andb_true_iff in H. destruct H as [Hw H].
  unfold no_eq at 1. now rewrite space_not_eq, IH.
Qed.

Lemma vcond_nonempty (v : str) : vcond v = true -> v <> [].
Proof. destruct v; [discriminate | discriminate]. Qed.

Lemma at_boundary_hd prev (u : str) (c : char) (t : str) :
  at_boundary U prev (u ++ c :: t) = at_boundary U prev (u ++ [c]).
Proof. destruct u; reflexivity. Qed.

Lemma g1_not_semi (var ws1 ws2 : str) :
  forallb not_semi var = true ->
  forallb (is_space U) ws1 = true -> forallb (is_space U) ws2 = true ->
  forallb not_semi (var ++ ws1 ++ c_eq :: ws2) = true.
Proof.
  intros Hv H1 H2. rewrite !forallb_app. cbn [forallb].
  rewrite Hv, (spaces_not_semi _ H1), (spaces_not_semi _ H2). reflexivity.
Qed.

(** The match at the start of a statement, as a decomposition. *)
Lemma hdr_iff (r : crule) prev u g1 :
  forallb not_semi (r_var r) = true -> forallb not_semi u = true ->
  hdr r prev u = Some g1 <->
  exists ws1 ws2 v,
    g1 = r_var r ++ ws1 ++ c_eq :: ws2 /\ u = g1 ++ v /\
    forallb (is_space U) ws1 = true /\ forallb (is_space U) ws2 = true /\
    vcond v = true /\
    (r_b r = true -> at_boundary U prev (u ++ [c_semi]) = true).
Proof.
  intros Hvar Hu. unfold hdr. split.
  - destruct (asgn_match (r_b r) (r_var r) prev (u ++ [c_semi]))
      as [[[g v] rest]|] eqn:E; [|discriminate].
    intros [= ->]. apply asgn_match_iff in E.
    destruct E as (ws1 & ws2 & Hg1 & Hs & H1 & H2 & Hall & Hv & Hb).
    exists ws1, ws2, v. repeat split; try assumption.
    rewrite app_assoc in Hs.
    apply (first_split not_semi) in Hs; [tauto | assumption | | reflexivity].
    rewrite forallb_app, Hall, Hg1, g1_not_semi by assumption. reflexivity.
  - intros (ws1 & ws2 & v & Hg1 & Hs & H1 & H2 & Hv & Hb).
    assert (E : asgn_match (r_b r) (r_var r) prev (u ++ [c_semi]) = Some (g1, v, [])).
    { apply asgn_match_iff. exists ws1, ws2. repeat split; try assumption.
      - rewrite Hs, <- app_assoc. reflexivity.
      - rewrite Hs, forallb_app in Hu. now apply andb_true_iff in Hu. }
    now rewrite E.
Qed.

(** A match in a text is the match in its first statement. *)
Lemma asgn_match_stmt (r : crule) prev (u t : str) :
  forallb not_semi (r_var r) = true -> forallb not_semi u = true ->
  match asgn_match (r_b r) (r_var r) prev (u ++ c_semi :: t) with
  | Some (g1, _, rest) => hdr r prev u = Some g1 /\ rest = t
  | None => hdr r prev u = None
  end.
Proof.
  intros Hvar Hu.
  destruct (asgn_match (r_b r) (r_var r) prev (u ++ c_semi :: t))
    as [[[g1 v] rest]|] eqn:E.
  - apply asgn_match_iff in E.
    destruct E as (ws1 & ws2 & Hg1 & Hs & H1 & H2 & Hall & Hv & Hb).
    rewrite app_assoc in Hs.
    apply (first_split not_semi) in Hs; [| assumption | | reflexivity].
    + destruct Hs as [Hs ->]. split; [|reflexivity].
      apply hdr_iff; try assumption.
      exists ws1, ws2, v. repeat split; try assumption.
      intros Hbt. rewrite <- (at_boundary_hd prev u c_semi rest). auto.
    + rewrite forallb_app, Hall, Hg1, g1_not_semi by assumption. reflexivity.
  - destruct (hdr r prev u) as [g1|] eqn:Eh; [|reflexivity].
    exfalso. apply hdr_iff in Eh; try assumption.
    destruct Eh as (ws1 & ws2 & v & Hg1 & Hs & H1 & H2 & Hv & Hb).
    assert (E' : asgn_match (r_b r) (r_var r) prev (u ++ c_semi :: t) = Some (g1, v, t)).
    { apply asgn_match_iff. exists ws1, ws2. repeat split; try assumption.
      - rewrite Hs, <- app_assoc. reflexivity.
      - rewrite Hs, forallb_app in Hu. now apply andb_true_iff in Hu.
      - intros Hbt. rewrite (at_boundary_hd prev u c_semi t). auto. }
    congruence.
Qed.

(** The scan of a text goes statement by statement. *)
Lemma rule_sub_stmt (r : crule) (u t : str) :
  forallb not_semi (r_var r) = true -> forallb not_semi u = true ->
  forall prev,
    rule_sub r prev (u ++ c_semi :: t) =
    stmt r prev u ++ c_semi :: rule_sub r (Some c_semi) t.
Proof.
  intros Hvar. induction u as [|c u IH]; intros Hu prev.
  - pose proof (asgn_match_stmt r prev [] t Hvar Hu) as Hm.
    rewrite rule_sub_eq, stmt_eq. cbn [app] in *.
    destruct (asgn_match (r_b r) (r_var r) prev (c_semi :: t)) as [[[g1 v] rest]|].
    + destruct Hm as [-> ->]. now rewrite <- app_assoc.
    + now rewrite Hm.
  - pose proof (asgn_match_stmt r prev (c :: u) t Hvar Hu) as Hm.
    rewrite rule_sub_eq, stmt_eq. cbn [app] in *.
    destruct (asgn_match (r_b r) (r_var r) prev (c :: u ++ c_semi :: t))
      as [[[g1 v] rest]|].
    + destruct Hm as [-> ->]. now rewrite <- app_assoc.
    + rewrite Hm. cbn [app]. f_equal. apply IH.
      simpl in Hu. now apply andb_true_iff in Hu.
Qed.

(** A text without a semicolon has no match. *)
Lemma rule_sub_no_semi (r : crule) (s : str) :
  forallb not_semi s = true -> forall prev, rule_sub r prev s = s.
Proof.
  induction s as [|c s IH]; intros Hs prev; rewrite rule_sub_eq.
  - destruct (asgn_match (r_b r) (r_var r) prev []) as [[[g1 v] rest]|] eqn:E;
      [|reflexivity].
    apply asgn_match_iff in E. destruct E as (ws1 & ws2 & _ & E & _).
    rewrite app_assoc in E. now apply app_cons_not_nil in E.
  - destruct (asgn_match (r_b r) (r_var r) prev (c :: s)) as [[[g1 v] rest]|] eqn:E.
    + exfalso. apply asgn_match_iff in E. destruct E as (ws1 & ws2 & _ & E & _).
      rewrite E, app_assoc, forallb_app in Hs. apply andb_true_iff in Hs.
      destruct Hs as [_ Hs]. discriminate Hs.
    + f_equal. apply IH. simpl in Hs. now apply andb_true_iff in Hs.
Qed.

(** *** Well-formed rules *)

Lemma plain_not_space (c : char) : plain c = true -> is_space U c = false.
Proof.
  unfold plain, is_space. intros H. apply andb_true_iff in H.
  destruct H as [-> H]. now apply negb_true_iff in H.
Qed.

Lemma str_eqb_refl (a : str) : str_eqb a a = true.
Proof. induction a as [|x a IH]; simpl; [reflexivity | now rewrite N.eqb_refl]. Qed.

Lemma suffixb_app (pre x : str) : suffixb x (pre ++ x) = true.
Proof.
  induction pre as [|c pre IH]; cbn [app].
  - destruct x; simpl; [reflexivity|]. now rewrite N.eqb_refl, str_eqb_refl.
  - cbn [suffixb]. rewrite IH. apply orb_true_r.
Qed.

Lemma snoc_case (A : Type) (l : list A) : l = [] \/ exists l' a, l = l' ++ [a].
Proof.
  destruct l as [|x l]; [now left | right].
  destruct (@exists_last _ (x :: l)) as (l' & a & E); [discriminate|].
  now exists l', a.
Qed.

(** Blanks at the end of a text that ends in something else are unique. *)
Lemma trailing_blanks (x0 : str) (cx : char) (y0 : str) (cy : char) (pre ws ws' : str) :
  is_space U cx = false -> is_space U cy = false ->
  forallb (is_space U) ws = true -> forallb (is_space U) ws' = true ->
  (x0 ++ [cx]) ++ ws = pre ++ (y0 ++ [cy]) ++ ws' ->
  x0 ++ [cx] = pre ++ y0 ++ [cy].
Proof.
  intros Hcx Hcy. revert ws'.
  induction ws as [|w ws IH] using rev_ind; intros ws' Hws Hws' E.
  - rewrite app_nil_r in E.
    destruct (snoc_case ws') as [->|(ws'' & w' & ->)].
    + now rewrite app_nil_r in E.
    + exfalso. rewrite !app_assoc in E. apply app_inj_tail in E.
      destruct E as [_ ->].
      rewrite forallb_app in Hws'. apply andb_true_iff in Hws'.
      destruct Hws' as [_ Hw]. simpl in Hw. rewrite andb_true_r in Hw. congruence.
  - rewrite forallb_app in Hws. apply andb_true_iff in Hws.
    destruct Hws as [Hws Hw]. simpl in Hw. rewrite andb_true_r in Hw.
    destruct (snoc_case ws') as [->|(ws'' & w' & ->)].
    + exfalso. rewrite app_nil_r, !app_assoc in E. apply app_inj_tail in E.
      destruct E as [_ ->]. congruence.
    + rewrite forallb_app in Hws'. apply andb_true_iff in Hws'.
      destruct Hws' as [Hws'' _].
      rewrite !app_assoc in E. apply app_inj_tail in E. destruct E as [E _].
      apply (IH ws''); try assumption. now rewrite <- !app_assoc in *.
Qed.

Section WellFormed.
Variable r : crule.
Hypothesis Hwf : wf_rule r = true.

Lemma wf_var_not_semi : forallb not_semi (r_var r) = true.
Proof.
  unfold wf_rule in Hwf. repeat (apply andb_true_iff in Hwf; destruct Hwf as [Hwf ?]).
  assumption.
Qed.

Lemma wf_var_no_eq : forallb no_eq (r_var r) = true.
Proof.
  unfold wf_rule in Hwf. repeat (apply andb_true_iff in Hwf; destruct Hwf as [Hwf ?]).
  assumption.
Qed.

Lemma wf_val_not_semi : forallb not_semi (r_val r) = true.
Proof.
  unfold wf_rule in Hwf. repeat (apply andb_true_iff in Hwf; destruct Hwf as [Hwf ?]).
  assumption.
Qed.

Lemma wf_val_no_eq : forallb no_eq (r_val r) = true.
Proof.
  unfold wf_rule in Hwf. repeat (apply andb_true_iff in Hwf; destruct Hwf as [Hwf ?]).
  assumption.
Qed.

Lemma wf_var_last : exists x c, r_var r = x ++ [c] /\ is_space U c = false.
Proof.
  unfold wf_rule in Hwf. repeat (apply andb_true_iff in Hwf; destruct Hwf as [Hwf ?]).
  destruct (rev (r_var r)) as [|c x] eqn:E; [discriminate|].
  exists (rev x), c. split; [|now apply plain_not_space].
  rewrite <- (rev_involutive (r_var r)), E. reflexivity.
Qed.

Lemma wf_val_head : exists c v, r_val r = c :: v /\ is_space U c = false.
Proof.
  unfold wf_rule in Hwf. repeat (apply andb_true_iff in Hwf; destruct Hwf as [Hwf ?]).
  destruct (r_val r) as [|c v]; [discriminate|].
  exists c, v. split; [reflexivity | now apply plain_not_space].
Qed.

Lemma wf_val_vcond : vcond (r_val r) = true.
Proof.
  destruct wf_val_head as (c & v & -> & Hc). cbn [vcond]. now rewrite Hc.
Qed.

End WellFormed.

(** *** When a rule matches in a statement *)

Lemma first_occ (d : char) (P : str) :
  In d P ->
  exists A B, P = A ++ d :: B /\ forallb (fun c => negb (c =? d)%N) A = true.
Proof.
  induction P as [|c P IH]; intros H; [contradiction|].
  destruct (N.eqb_spec c d) as [->|Hcd].
  - exists [], P. now split.
  - destruct H as [->|H]; [contradiction|].
    destruct (IH H) as (A & B & -> & HA).
    exists (c :: A), B. split; [reflexivity|].
    simpl. rewrite HA. apply N.eqb_neq in Hcd. now rewrite Hcd.
Qed.

Section OneRule.
Variable r : crule.
Hypothesis Hwf : wf_rule r = true.

(** The rule matches at the start of a statement exactly when the
    statement reads name, blanks, equals sign and something more. *)
Lemma hdr_ok prev (u : str) :
  forallb not_semi u = true ->
  (exists g1, hdr r prev u = Some g1) <->
  exists ws1 y,
    u = r_var r ++ ws1 ++ c_eq :: y /\ forallb (is_space U) ws1 = true /\
    y <> [] /\ (r_b r = true -> at_boundary U prev (u ++ [c_semi]) = true).
Proof.
  intros Hu. pose proof (wf_var_not_semi r Hwf) as Hvar. split.
  - intros (g1 & Hh). apply hdr_iff in Hh; try assumption.
    destruct Hh as (ws1 & ws2 & v & Hg1 & Hs & H1 & H2 & Hv & Hb).
    exists ws1, (ws2 ++ v). repeat split; try assumption.
    + rewrite Hs, Hg1, <- !app_assoc. reflexivity.
    + apply vcond_nonempty in Hv. destruct ws2; [assumption | discriminate].
  - intros (ws1 & y & Hs & H1 & Hy & Hb).
    assert (Hyu : forallb not_semi y = true).
    { rewrite Hs, !forallb_app in Hu. cbn [forallb] in Hu.
      repeat (apply andb_true_iff in Hu; destruct Hu as [? Hu]). assumption. }
    destruct (tail_at_progress [] Hy Hyu) as (ws2 & v & Ht & Hyv).
    apply tail_at_some in Ht. destruct Ht as (_ & H2 & _ & Hv).
    exists (r_var r ++ ws1 ++ c_eq :: ws2). apply hdr_iff; try assumption.
    exists ws1, ws2, v. repeat split; try assumption.
    rewrite Hs, Hyv, <- !app_assoc. reflexivity.
Qed.

(** What the scan of a statement returns: the statement itself, or a
    prefix holding an equals sign followed by the value of the rule. *)
Lemma stmt_shape (u : str) :
  forallb not_semi u = true ->
  forall prev,
    stmt r prev u = u \/
    exists P v, u = P ++ v /\ stmt r prev u = P ++ r_val r /\
                In c_eq P /\ v <> [].
Proof.
  pose proof (wf_var_not_semi r Hwf) as Hvar.
  induction u as [|c u IH]; intros Hu prev; rewrite stmt_eq.
  - destruct (hdr r prev []) as [g1|] eqn:Eh; [|now left].
    apply hdr_iff in Eh; try assumption.
    destruct Eh as (ws1 & ws2 & v & Hg1 & Hs & _).
    exfalso. rewrite Hg1 in Hs.
    destruct (r_var r); [destruct ws1|]; discriminate.
  - destruct (hdr r prev (c :: u)) as [g1|] eqn:Eh.
    + apply hdr_iff in Eh; try assumption.
      destruct Eh as (ws1 & ws2 & v & Hg1 & Hs & _ & _ & Hv & _).
      right. exists g1, v. repeat split; try assumption.
      * rewrite Hg1, !in_app_iff. right; right. now left.
      * now apply vcond_nonempty.
    + simpl in Hu. apply andb_true_iff in Hu. destruct Hu as [_ Hu].
      destruct (IH Hu (Some c)) as [E|(P & v & Hs & E & HP & Hv)].
      * left. now rewrite E.
      * right. exists (c :: P), v. repeat split; try assumption.
        -- now rewrite Hs.
        -- now rewrite E.
        -- now right.
Qed.

Lemma stmt_not_semi (u : str) prev :
  forallb not_semi u = true -> forallb not_semi (stmt r prev u) = true.
Proof.
  intros Hu. destruct (stmt_shape u Hu prev) as [->|(P & v & Hs & -> & _)];
    [assumption|].
  rewrite Hs, forallb_app in Hu. apply andb_true_iff in Hu. destruct Hu as [HP _].
  rewrite forallb_app, HP. apply (wf_val_not_semi r Hwf).
Qed.

(** Whether the rule matches at the start of a statement is decided by
    the text up to the first equals sign, provided something follows. *)
Lemma hdr_prefix_stable prev (P v v' : str) :
  In c_eq P -> v <> [] ->
  forallb not_semi (P ++ v) = true -> forallb not_semi (P ++ v') = true ->
  hdr r prev (P ++ v) = None -> hdr r prev (P ++ v') = None.
Proof.
  intros HP Hv Hu Hu' Hnone.
  destruct (hdr r prev (P ++ v')) as [g1|] eqn:Eh; [exfalso | reflexivity].
  assert (Hsome : exists g, hdr r prev (P ++ v') = Some g) by eauto.
  apply hdr_ok in Hsome; try assumption.
  destruct Hsome as (ws1 & y & Hs & H1 & Hy & Hb).
  destruct (first_occ c_eq P HP) as (A & B & -> & HA).
  rewrite <- app_assoc in Hs. cbn [app] in Hs. rewrite app_assoc in Hs.
  apply (first_split no_eq) in Hs; [| assumption | | reflexivity].
  - destruct Hs as [-> _].
    assert (Hsome : exists g, hdr r prev (((r_var r ++ ws1) ++ c_eq :: B) ++ v) = Some g).
    { apply hdr_ok; try assumption.
      exists ws1, (B ++ v). repeat split; try assumption.
      - rewrite <- !app_assoc. reflexivity.
      - destruct B; [assumption | discriminate].
      - intros Hbt. specialize (Hb Hbt).
        rewrite <- !app_assoc in Hb |- *.
        destruct (r_var r) as [|c0 var]; [destruct ws1 as [|w ws1]|];
          cbn [app] in Hb |- *; exact Hb. }
    destruct Hsome as (g & Hg). congruence.
  - rewrite forallb_app, (wf_var_no_eq r Hwf), (spaces_no_eq _ H1). reflexivity.
Qed.

(** A statement without an equals sign has no match. *)
Lemma stmt_no_eq (u : str) :
  forallb no_eq u = true -> forallb not_semi u = true ->
  forall prev, stmt r prev u = u.
Proof.
  induction u as [|c u IH]; intros He Hu prev; rewrite stmt_eq.
  - destruct (hdr r prev []) as [g1|] eqn:Eh; [|reflexivity].
    destruct (stmt_shape [] Hu prev) as [E|(P & v & Hs & _ & HP & _)].
    + now rewrite stmt_eq, Eh in E.
    + destruct P; [contradiction | discriminate].
  - destruct (hdr r prev (c :: u)) as [g1|] eqn:Eh.
    + exfalso.
      assert (Hsome : exists g, hdr r prev (c :: u) = Some g) by eauto.
      apply hdr_ok in Hsome; try assumption.
      destruct Hsome as (ws1 & y & Hs & _).
      rewrite Hs, !forallb_app in He. cbn [forallb] in He.
      repeat (apply andb_true_iff in He; destruct He as [? He]).
      discriminate.
    + f_equal. simpl in He, Hu.
      apply andb_true_iff in He. apply andb_true_iff in Hu.
      apply IH; tauto.
Qed.

(** A statement with one equals sign, before which the name of the rule
    does not stand, has no match. *)
Lemma stmt_single_eq (A B : str) :
  forallb no_eq A = true -> forallb no_eq B = true ->
  forallb not_semi (A ++ c_eq :: B) = true ->
  (forall pre ws, forallb (is_space U) ws = true -> A <> pre ++ r_var r ++ ws) ->
  forall prev, stmt r prev (A ++ c_eq :: B) = A ++ c_eq :: B.
Proof.
  induction A as [|a A IH]; intros HA HB Hu Hno prev; rewrite stmt_eq.
  - assert (Hh : hdr r prev ([] ++ c_eq :: B) = None).
    { destruct (hdr r prev ([] ++ c_eq :: B)) as [g1|] eqn:Eh; [exfalso|reflexivity].
      assert (Hsome : exists g, hdr r prev ([] ++ c_eq :: B) = Some g) by eauto.
      apply hdr_ok in Hsome; try assumption.
      destruct Hsome as (ws1 & y & Hs & H1 & _).
      rewrite app_assoc in Hs.
      apply (first_split no_eq) in Hs; [| reflexivity | | reflexivity].
      - destruct Hs as [Hs _]. apply (Hno [] ws1 H1). exact Hs.
      - rewrite forallb_app, (wf_var_no_eq r Hwf), (spaces_no_eq _ H1). reflexivity. }
    rewrite Hh. cbn [app]. f_equal.
    apply stmt_no_eq; [assumption|].
    cbn [app forallb] in Hu. now apply andb_true_iff in Hu.
  - assert (Hh : hdr r prev ((a :: A) ++ c_eq :: B) = None).
    { destruct (hdr r prev ((a :: A) ++ c_eq :: B)) as [g1|] eqn:Eh;
        [exfalso|reflexivity].
      assert (Hsome : exists g, hdr r prev ((a :: A) ++ c_eq :: B) = Some g) by eauto.
      apply hdr_ok in Hsome; try assumption.
      destruct Hsome as (ws1 & y & Hs & H1 & _).
      rewrite app_assoc in Hs.
      apply (first_split no_eq) in Hs; [| assumption | | reflexivity].
      - destruct Hs as [Hs _]. apply (Hno [] ws1 H1). exact Hs.
      - rewrite forallb_app, (wf_var_no_eq r Hwf), (spaces_no_eq _ H1). reflexivity. }
    rewrite Hh. cbn [app]. f_equal.
    simpl in HA. apply andb_true_iff in HA. destruct HA as [_ HA].
    cbn [app forallb] in Hu. apply andb_true_iff in Hu. destruct Hu as [_ Hu].
    apply IH; try assumption.
    intros pre ws Hws E. apply (Hno (a :: pre) ws Hws). now rewrite E.
Qed.

End OneRule.

(** *** Rules do not undo each other *)

(** Where a rule does not match at the start of a statement, it still
    does not after another rule has rewritten what follows. *)
Lemma hdr_step_none (r r' : crule) prev (c : char) (u : str) :
  wf_rule r = true -> wf_rule r' = true ->
  forallb not_semi (c :: u) = true ->
  hdr r prev (c :: u) = None ->
  hdr r prev (c :: stmt r' (Some c) u) = None.
Proof.
  intros Hwf Hwf' Hu Hnone.
  assert (Hu' : forallb not_semi u = true)
    by (simpl in Hu; now apply andb_true_iff in Hu).
  destruct (stmt_shape r' Hwf' u Hu' (Some c)) as [->|(P & v & Hs & -> & HP & Hv)];
    [assumption|].
  subst u.
  apply (@hdr_prefix_stable r Hwf prev (c :: P) v (r_val r')); try assumption.
  - now right.
  - cbn [app forallb] in Hu |- *. apply andb_true_iff in Hu. destruct Hu as [Hc Hu].
    rewrite forallb_app in Hu. apply andb_true_iff in Hu. destruct Hu as [HPs _].
    rewrite Hc, forallb_app, HPs. apply (wf_val_not_semi r' Hwf').
Qed.

(** The text a rule has written is a match of the rule with the same
    group 1. *)
Lemma hdr_own (r : crule) prev (u g1 : str) :
  wf_rule r = true -> forallb not_semi u = true ->
  hdr r prev u = Some g1 -> hdr r prev (g1 ++ r_val r) = Some g1.
Proof.
  intros Hwf Hu Hh. pose proof (wf_var_not_semi r Hwf) as Hvar.
  apply hdr_iff in Hh; try assumption.
  destruct Hh as (ws1 & ws2 & v & Hg1 & Hs & H1 & H2 & Hv & Hb).
  assert (Hg : forallb not_semi g1 = true)
    by (rewrite Hs, forallb_app in Hu; now apply andb_true_iff in Hu).
  apply hdr_iff; try assumption.
  - rewrite forallb_app, Hg. apply (wf_val_not_semi r Hwf).
  - exists ws1, ws2, (r_val r). repeat split; try assumption.
    + apply (wf_val_vcond r Hwf).
    + intros Hbt. specialize (Hb Hbt). rewrite Hs in Hb.
      rewrite Hg1, <- !app_assoc in Hb |- *.
      destruct (r_var r) as [|c0 var]; [destruct ws1 as [|w ws1]|];
        cbn [app] in Hb |- *; exact Hb.
Qed.

Lemma stmt_idem (r : crule) (u : str) :
  wf_rule r = true -> forallb not_semi u = true ->
  forall prev, stmt r prev (stmt r prev u) = stmt r prev u.
Proof.
  intros Hwf. induction u as [|c u IH]; intros Hu prev.
  - rewrite (stmt_eq r prev []).
    destruct (hdr r prev []) as [g1|] eqn:Eh.
    + rewrite stmt_eq, (hdr_own r prev [] Hwf Hu Eh). reflexivity.
    + rewrite stmt_eq, Eh. reflexivity.
  - rewrite (stmt_eq r prev (c :: u)).
    destruct (hdr r prev (c :: u)) as [g1|] eqn:Eh.
    + rewrite stmt_eq, (hdr_own r prev (c :: u) Hwf Hu Eh). reflexivity.
    + rewrite stmt_eq, (hdr_step_none r r prev c u Hwf Hwf Hu Eh).
      f_equal. apply IH. simpl in Hu. now apply andb_true_iff in Hu.
Qed.

Lemma independent_no_suffix (ri rj : crule) (ws1 : str) :
  wf_rule ri = true -> wf_rule rj = true ->
  suffixb (r_var ri) (r_var rj) = false ->
  forallb (is_space U) ws1 = true ->
  forall pre ws, forallb (is_space U) ws = true ->
                 r_var rj ++ ws1 <> pre ++ r_var ri ++ ws.
Proof.
  intros Hwfi Hwfj Hsuf H1 pre ws Hws E.
  destruct (wf_var_last ri Hwfi) as (y0 & cy & Ei & Hcy).
  destruct (wf_var_last rj Hwfj) as (x0 & cx & Ej & Hcx).
  rewrite Ei, Ej in E.
  apply trailing_blanks in E; try assumption.
  rewrite <- Ei, <- Ej in E. rewrite E, suffixb_app in Hsuf. discriminate.
Qed.

(** After a rule has rewritten a statement, no independent rule matches
    in it. *)
Lemma stmt_after_match (ri rj : crule) prev (u g1 : str) :
  wf_rule ri = true -> wf_rule rj = true ->
  suffixb (r_var ri) (r_var rj) = false ->
  forallb not_semi u = true ->
  hdr rj prev u = Some g1 ->
  stmt ri prev (g1 ++ r_val rj) = g1 ++ r_val rj.
Proof.
  intros Hwfi Hwfj Hsuf Hu Hh.
  pose proof (wf_var_not_semi rj Hwfj) as Hvar.
  apply hdr_iff in Hh; try assumption.
  destruct Hh as (ws1 & ws2 & v & Hg1 & Hs & H1 & H2 & Hv & Hb).
  assert (Hg : forallb not_semi g1 = true)
    by (rewrite Hs, forallb_app in Hu; now apply andb_true_iff in Hu).
  assert (E : g1 ++ r_val rj = (r_var rj ++ ws1) ++ c_eq :: (ws2 ++ r_val rj)).
  { rewrite Hg1, <- !app_assoc. reflexivity. }
  rewrite E. apply stmt_single_eq; try assumption.
  - rewrite forallb_app, (wf_var_no_eq rj Hwfj), (spaces_no_eq _ H1). reflexivity.
  - rewrite forallb_app, (spaces_no_eq _ H2), (wf_val_no_eq rj Hwfj). reflexivity.
  - rewrite <- E, forallb_app, Hg. apply (wf_val_not_semi rj Hwfj).
  - now apply independent_no_suffix.
Qed.

(** A statement that one rule leaves alone is still left alone by it
    after an independent rule has been applied. *)
Lemma stmt_cross (ri rj : crule) (u : str) :
  wf_rule ri = true -> wf_rule rj = true -> independent ri rj = true ->
  forallb not_semi u = true ->
  forall prev,
    stmt ri prev u = u ->
    stmt ri prev (stmt rj prev u) = stmt rj prev u.
Proof.
  intros Hwfi Hwfj Hind.
  unfold independent in Hind. apply andb_true_iff in Hind.
  destruct Hind as [Hij Hji]. apply negb_true_iff in Hij, Hji.
  induction u as [|c u IH]; intros Hu prev Hst.
  - rewrite (stmt_eq rj prev []).
    destruct (hdr rj prev []) as [g1|] eqn:Eh; [|exact Hst].
    now apply (stmt_after_match ri rj prev []).
  - rewrite (stmt_eq rj prev (c :: u)).
    destruct (hdr rj prev (c :: u)) as [g1|] eqn:Eh.
    + now apply (stmt_after_match ri rj prev (c :: u)).
    + destruct (hdr ri prev (c :: u)) as [g1|] eqn:Ei.
      * (* the statement is the output of [ri]: [rj] cannot match in it *)
        pose proof Hst as Hst'. rewrite stmt_eq, Ei in Hst'.
        pose proof (stmt_after_match rj ri prev (c :: u) Hwfj Hwfi Hji Hu Ei) as Hj.
        rewrite Hst', stmt_eq, Eh in Hj. rewrite Hj. exact Hst.
      * rewrite stmt_eq, Ei in Hst. injection Hst as Hst.
        rewrite stmt_eq, (hdr_step_none ri rj prev c u Hwfi Hwfj Hu Ei).
        f_equal. apply IH; [|assumption].
        simpl in Hu. now apply andb_true_iff in Hu.
Qed.

(** *** From statements to the whole text *)

Lemma semi_ind (P : str -> Prop) :
  (forall u, forallb not_semi u = true -> P u) ->
  (forall u t, forallb not_semi u = true -> P t -> P (u ++ c_semi :: t)) ->
  forall s, P s.
Proof.
  intros Hbase Hstep s.
  assert (H : forall u, forallb not_semi u = true -> P (u ++ s)).
  { induction s as [|c s IH]; intros u Hu.
    - rewrite app_nil_r. now apply Hbase.
    - destruct (not_semi c) eqn:Ec.
      + replace (u ++ c :: s) with ((u ++ [c]) ++ s) by now rewrite <- app_assoc.
        apply IH. rewrite forallb_app, Hu. simpl. now rewrite Ec.
      + apply not_semi_false in Ec. subst c. apply Hstep; [assumption|].
        apply (IH []). reflexivity. }
  apply (H []). reflexivity.
Qed.

Lemma rule_sub_idem (r : crule) :
  wf_rule r = true ->
  forall s prev, rule_sub r prev (rule_sub r prev s) = rule_sub r prev s.
Proof.
  intros Hwf s. pose proof (wf_var_not_semi r Hwf) as Hvar.
  induction s as [u Hu | u t Hu IH] using semi_ind; intros prev.
  - now rewrite !(rule_sub_no_semi r u Hu).
  - rewrite (@rule_sub_stmt r u t Hvar Hu).
    rewrite (@rule_sub_stmt r _ _ Hvar (@stmt_not_semi r Hwf u prev Hu)).
    rewrite stmt_idem, IH by assumption. reflexivity.
Qed.

Lemma rule_sub_cross (ri rj : crule) :
  wf_rule ri = true -> wf_rule rj = true -> independent ri rj = true ->
  forall s prev,
    rule_sub ri prev s = s ->
    rule_sub ri prev (rule_sub rj prev s) = rule_sub rj prev s.
Proof.
  intros Hwfi Hwfj Hind s.
  pose proof (wf_var_not_semi ri Hwfi) as Hvi.
  pose proof (wf_var_not_semi rj Hwfj) as Hvj.
  induction s as [u Hu | u t Hu IH] using semi_ind; intros prev Hst.
  - now rewrite (rule_sub_no_semi rj u Hu).
  - rewrite (@rule_sub_stmt ri u t Hvi Hu) in Hst.
    apply (first_split not_semi) in Hst;
      [| now apply stmt_not_semi | assumption | reflexivity].
    destruct Hst as [Hu' Ht].
    rewrite (@rule_sub_stmt rj u t Hvj Hu).
    rewrite (@rule_sub_stmt ri _ _ Hvi (@stmt_not_semi rj Hwfj u prev Hu)).
    rewrite stmt_cross, IH by assumption. reflexivity.
Qed.

(** *** A list of rules *)

Lemma stable_fold (r : crule) (rs : list crule) :
  wf_rule r = true -> forallb wf_rule rs = true ->
  forallb (independent r) rs = true ->
  forall s, rule_sub r None s = s ->
            rule_sub r None (rules_sub rs s) = rules_sub rs s.
Proof.
  intros Hwf. induction rs as [|r' rs IH]; intros Hwfs Hind s Hst; [exact Hst|].
  simpl in Hwfs, Hind. apply andb_true_iff in Hwfs. apply andb_true_iff in Hind.
  destruct Hwfs as [Hwf' Hwfs]. destruct Hind as [Hi Hind].
  cbn [rules_sub fold_left]. apply IH; try assumption.
  now apply rule_sub_cross.
Qed.

(** After the list has been applied, every rule of it leaves the text
    alone. *)
Lemma rules_sub_stable (rs : list crule) :
  forallb wf_rule rs = true -> all_independent rs = true ->
  forall s r, In r rs -> rule_sub r None (rules_sub rs s) = rules_sub rs s.
Proof.
  induction rs as [|r1 rs IH]; intros Hwfs Hind s r Hin; [contradiction|].
  simpl in Hwfs, Hind. apply andb_true_iff in Hwfs. apply andb_true_iff in Hind.
  destruct Hwfs as [Hwf1 Hwfs]. destruct Hind as [Hi1 Hind].
  cbn [rules_sub fold_left]. destruct Hin as [<-|Hin].
  - apply stable_fold; try assumption. now apply rule_sub_idem.
  - now apply IH.
Qed.

Lemma rules_sub_fix (rs : list crule) (s : str) :
  (forall r, In r rs -> rule_sub r None s = s) -> rules_sub rs s = s.
Proof.
  induction rs as [|r rs IH]; intros H; [reflexivity|].
  cbn [rules_sub fold_left]. rewrite (H r (or_introl eq_refl)).
  apply IH. intros r' Hr'. apply H. now right.
Qed.

Lemma rules_sub_idem (rs : list crule) :
  forallb wf_rule rs = true -> all_independent rs = true ->
  forall s, rules_sub rs (rules_sub rs s) = rules_sub rs s.
Proof.
  intros Hwf Hind s. apply rules_sub_fix.
  intros r Hr. now apply rules_sub_stable.
Qed.

Lemma rules_sub_no_semi (rs : list crule) (s : str) :
  forallb not_semi s = true -> rules_sub rs s = s.
Proof.
  intros Hs. apply rules_sub_fix. intros r _. now apply rule_sub_no_semi.
Qed.

Lemma shape_of_sound (p : prog) (t : template) (r : crule) :
  shape_of p t = Some r ->
  p = asgn_prog (r_b r) (r_g2 r) (r_var r) /\ t = tpl_of r.
Proof.
  unfold shape_of. intros H. apply find_some in H. destruct H as [_ H].
  destruct (list_eq_dec instr_eq_dec p _) as [Hp|]; [|discriminate].
  destruct (list_eq_dec titem_eq_dec t _) as [Ht|]; [|discriminate].
  now split.
Qed.

Lemma decode_sound (pattern repl : str) (id : string) (r : crule) (s : str) :
  decode (pattern, repl, id) = Some r ->
  re_sub U pattern repl s = Some (rule_sub r None s).
Proof.
  unfold decode, re_sub.
  destruct (re_compile pattern) as [[p groups]|]; [|discriminate].
  destruct (parse_template groups repl) as [t|]; [|discriminate].
  intros H. apply shape_of_sound in H. destruct H as [-> ->]. reflexivity.
Qed.

Lemma apply_content_rules (self : HighPatcher.t) (pts : list PT) (rs : list crule) :
  decode_all pts = Some rs ->
  forall content,
    HighPatcher._apply_content U self content pts = Some (rules_sub rs content).
Proof.
  revert rs; induction pts as [|[[pattern repl] id] pts IH]; intros rs H content.
  - injection H as <-. reflexivity.
  - cbn [decode_all] in H.
    destruct (decode (pattern, repl, id)) as [r|] eqn:Ed; [|discriminate].
    destruct (decode_all pts) as [rs'|]; [|discriminate].
    injection H as <-.
    cbn [HighPatcher._apply_content]. rewrite (decode_sound _ _ _ content Ed).
    change (rules_sub (r :: rs') content) with (rules_sub rs' (rule_sub r None content)).
    now apply IH.
Qed.

Lemma checked_high :
  checked (GPU_P ++ SM_P ++ WV_P ++ RB_P ++ SO_P ++ MS_P ++ RT_P ++ SF_P ++ TX_P ++ RN_P)
  = true.
Proof. vm_compute. reflexivity. Qed.

Lemma checked_minimal : checked GPU_P = true.
Proof. vm_compute. reflexivity. Qed.

Lemma checked_patches_of (profile : string) :
  checked (HighPatcher.patches_of profile) = true.
Proof.
  unfold HighPatcher.patches_of.
  destruct (String.eqb profile "high"); [apply checked_high | apply checked_minimal].
Qed.

(** ** The rule engine *)

(** C3: applying the rule list of a profile twice gives the same text as
    applying it once, for the full list of profile high and for the
    fallback list of every other profile name, and for every text. *)
Theorem apply_content_idempotent (self : HighPatcher.t) (profile : string) (c : str) :
  exists c1,
    HighPatcher._apply_content U self c (HighPatcher.patches_of profile) = Some c1 /\
    HighPatcher._apply_content U self c1 (HighPatcher.patches_of profile) = Some c1.
Proof.
  pose proof (checked_patches_of profile) as Hc. unfold checked in Hc.
  destruct (decode_all (HighPatcher.patches_of profile)) as [rs|] eqn:Ed;
    [|discriminate].
  apply andb_true_iff in Hc. destruct Hc as [Hwf Hind].
  exists (rules_sub rs c). split.
  - now apply apply_content_rules.
  - rewrite (apply_content_rules self _ Ed). f_equal.
    now apply rules_sub_idem.
Qed.

(** C10: a text without a semicolon is returned as it is by the rule list
    of every profile, since every rule needs a semicolon to match. *)
Theorem apply_content_no_semicolon (self : HighPatcher.t) (profile : string) (c : str) :
  ~ In c_semi c ->
  HighPatcher._apply_content U self c (HighPatcher.patches_of profile) = Some c.
Proof.
  intros Hc.
  pose proof (checked_patches_of profile) as Hk. unfold checked in Hk.
  destruct (decode_all (HighPatcher.patches_of profile)) as [rs|] eqn:Ed;
    [|discriminate].
  rewrite (apply_content_rules self _ Ed). f_equal.
  apply rules_sub_no_semi.
  apply forallb_forall. intros x Hx.
  destruct (not_semi x) eqn:E; [reflexivity|].
  apply not_semi_false in E. subst x. contradiction.
Qed.

(** C4: the pattern of [mk_asgn] compiles for every name; it matches at a
    position exactly when a word boundary stands there and the text reads
    the name character by character, blanks, the equals sign, blanks, a
    value without semicolon, and a semicolon; group 1 is the name with the
    equals sign and the blanks around it, group 2 the value up to the
    semicolon.  So the rule for adapter_id.vendor_id finds nothing in
    xadapter_id.vendor_id = 0x1234; and finds the assignment in
    adapter_id.vendor_id = 0x5678; after two blanks, and [re.sub] with
    that rule leaves the first line alone and rewrites the second. *)
Theorem mk_asgn_pattern (var : str) :
  exists p,
    re_compile (mk_asgn var) = Some (p, 2) /\
    (forall prev s cs rest,
        re_match U p prev s = Some (cs, rest) <->
        exists ws1 ws2 v,
          s = (var ++ ws1 ++ [c_eq] ++ ws2) ++ v ++ [c_semi] ++ rest /\
          at_boundary U prev s = true /\
          forallb (is_space U) ws1 = true /\
          forallb (is_space U) ws2 = true /\
          forallb not_semi v = true /\
          vcond v = true /\
          cs = [(2, v); (1, var ++ ws1 ++ [c_eq] ++ ws2)]) /\
    re_search U (mk_asgn (py "adapter_id.vendor_id"))
              (py "xadapter_id.vendor_id = 0x1234;") = None /\
    re_search U (mk_asgn (py "adapter_id.vendor_id"))
              (py "  adapter_id.vendor_id = 0x5678;") =
    Some (py "  ", [(2, py "0x5678"); (1, py "adapter_id.vendor_id = ")], []) /\
    re_sub U (mk_asgn (py "adapter_id.vendor_id")) (py "\g<1>0x1002;")
           (py "xadapter_id.vendor_id = 0x1234;") =
    Some (py "xadapter_id.vendor_id = 0x1234;") /\
    re_sub U (mk_asgn (py "adapter_id.vendor_id")) (py "\g<1>0x1002;")
           (py "  adapter_id.vendor_id = 0x5678;") =
    Some (py "  adapter_id.vendor_id = 0x1002;").
Proof.
  exists (asgn_prog true true var). split; [apply compile_mk_asgn|].
  split; [|repeat split; vm_compute; reflexivity].
  intros prev s cs rest. rewrite re_match_asgn. split.
  - destruct (asgn_match true var prev s) as [[[g1 v] rest']|] eqn:E; [|discriminate].
    intros [= <- <-]. apply asgn_match_iff in E.
    destruct E as (ws1 & ws2 & -> & -> & H1 & H2 & Hall & Hv & Hb).
    exists ws1, ws2, v. repeat split; auto.
  - intros (ws1 & ws2 & v & -> & Hb & H1 & H2 & Hall & Hv & ->).
    assert (E : asgn_match true var prev
                  ((var ++ ws1 ++ [c_eq] ++ ws2) ++ v ++ [c_semi] ++ rest) =
                Some (var ++ ws1 ++ [c_eq] ++ ws2, v, rest)).
    { apply asgn_match_iff. exists ws1, ws2. repeat split; auto. }
    rewrite E. reflexivity.
Qed.

End Assignment.

(** ** The file pass *)

Lemma file_at_store (q fp : string) (txt : str) (fs : list (string * file)) :
  file_at q (store fp txt fs) =
  match file_at q fs with
  | Some f => Some (if String.eqb q fp then with_text f txt else f)
  | None => None
  end.
Proof.
  induction fs as [|[p f] fs IH]; [reflexivity|].
  cbn [store file_at].
  destruct (String.eqb_spec fp p) as [->|Hfp].
  - cbn [file_at]. destruct (String.eqb_spec q p) as [->|Hq]; [reflexivity|].
    destruct (file_at q fs); reflexivity.
  - cbn [file_at]. destruct (String.eqb_spec q p) as [->|Hq].
    + destruct (String.eqb_spec p fp) as [->|_]; [contradiction | reflexivity].
    + exact IH.
Qed.

Section FilePass.
Context {U : unicode_db}.
Variable self : HighPatcher.t.
Variable patches : list PT.
Variable rs : list crule.
Hypothesis Hdec : decode_all patches = Some rs.
Hypothesis Hwf : forallb wf_rule rs = true.
Hypothesis Hind : all_independent rs = true.

Lemma patched_nil (w : world) : patched rs [] w w.
Proof.
  repeat split; [now rewrite app_nil_r|].
  intros q. destruct (file_at q (w_files w)); reflexivity.
Qed.

(** One file that can be read and written is rewritten with its patched
    text, and the write is recorded. *)
Lemma patch_one (w : world) (fp : string) :
  usable w fp = true ->
  exists f w1,
    file_at fp (w_files w) = Some f /\
    read_text w fp = Some (f_text f) /\
    HighPatcher._apply_content U self (f_text f) patches =
      Some (rules_sub rs (f_text f)) /\
    write_text w fp (rules_sub rs (f_text f)) = Some w1 /\
    patched rs [fp] w w1.
Proof.
  unfold usable, read_text, write_text. intros Hu.
  destruct (file_at fp (w_files w)) as [f|] eqn:Ef; [|discriminate].
  apply andb_true_iff in Hu. destruct Hu as [Hr Hw]. rewrite Hr, Hw.
  eexists f, _. repeat split; try reflexivity.
  - now apply apply_content_rules.
  - intros q. cbn [w_files]. rewrite file_at_store.
    destruct (file_at q (w_files w)) as [g|] eqn:Eg; [|reflexivity].
    destruct (String.eqb_spec q fp) as [->|Hq].
    + destruct (in_dec string_dec fp [fp]) as [_|Hn]; [|exfalso; apply Hn; now left].
      congruence.
    + destruct (in_dec string_dec q [fp]) as [[Hi|[]]|_]; [congruence | reflexivity].
Qed.

Lemma patched_step (w w1 w2 : world) (fp : string) (fps : list string) :
  patched rs [fp] w w1 -> patched rs fps w1 w2 -> patched rs (fp :: fps) w w2.
Proof.
  intros (Hd1 & Hg1 & Hw1 & Hf1) (Hd2 & Hg2 & Hw2 & Hf2).
  repeat split; try congruence.
  - rewrite Hw2, Hw1, <- app_assoc. reflexivity.
  - intros q. rewrite Hf2, Hf1.
    destruct (file_at q (w_files w)) as [f|]; [|reflexivity].
    f_equal.
    destruct (in_dec string_dec q [fp]) as [[<-|[]]|H1].
    + destruct (in_dec string_dec fp (fp :: fps)) as [_|Hn];
        [|exfalso; apply Hn; now left].
      destruct (in_dec string_dec fp fps); [|reflexivity].
      cbn [with_text f_text f_readable f_writable].
      now rewrite rules_sub_idem.
    + destruct (in_dec string_dec q fps) as [H2|H2];
        destruct (in_dec string_dec q (fp :: fps)) as [H3|H3];
        try reflexivity.
      * exfalso. apply H3. now right.
      * exfalso. destruct H3 as [->|H3]; [apply H1; now left | contradiction].
Qed.

Lemma usable_patched (fps : list string) (w w' : world) (q : string) :
  patched rs fps w w' -> usable w' q = usable w q.
Proof.
  intros (_ & _ & _ & Hf). unfold usable. rewrite Hf.
  destruct (file_at q (w_files w)) as [f|]; [|reflexivity].
  destruct (in_dec string_dec q fps); reflexivity.
Qed.

Lemma read_patched_none (fps : list string) (w w' : world) (q : string) :
  patched rs fps w w' -> read_text w q = None -> read_text w' q = None.
Proof.
  intros (_ & _ & _ & Hf). unfold read_text. rewrite Hf.
  destruct (file_at q (w_files w)) as [f|]; [|reflexivity].
  destruct (in_dec string_dec q fps); cbn [with_text f_readable];
    destruct (f_readable f); intros; congruence.
Qed.

(** The loop over files that can all be read and written ends normally. *)
Lemma patch_files_ok (fps : list string) :
  forall w,
    forallb (usable w) fps = true ->
    exists w',
      HighPatcher.patch_files U self w patches fps = (Ret tt, w') /\
      patched rs fps w w'.
Proof.
  induction fps as [|fp fps IH]; intros w Hu.
  - exists w. split; [reflexivity | apply patched_nil].
  - simpl in Hu. apply andb_true_iff in Hu. destruct Hu as [Hfp Hu].
    destruct (patch_one w fp Hfp) as (f & w1 & Ef & Hr & Ha & Hw & Hp).
    destruct (IH w1) as (w' & Hrun & Hp').
    { apply forallb_forall. intros q Hq. rewrite (usable_patched q Hp).
      rewrite forallb_forall in Hu. now apply Hu. }
    exists w'. split; [|now apply (patched_step Hp Hp')].
    cbn [HighPatcher.patch_files]. now rewrite Hr, Ha, Hw.
Qed.

(** The loop stops at the first file that cannot be read. *)
Lemma patch_files_read_error (pre : list string) (fp : string) (post : list string) :
  forall w,
    forallb (usable w) pre = true ->
    read_text w fp = None ->
    exists w',
      HighPatcher.patch_files U self w patches (pre ++ fp :: post) =
        (Raise (OSError fp), w') /\
      patched rs pre w w'.
Proof.
  induction pre as [|p pre IH]; intros w Hu Hr.
  - exists w. split; [|apply patched_nil].
    cbn [app HighPatcher.patch_files]. now rewrite Hr.
  - simpl in Hu. apply andb_true_iff in Hu. destruct Hu as [Hp Hu].
    destruct (patch_one w p Hp) as (f & w1 & Ef & Hrd & Ha & Hw & Hpt).
    destruct (IH w1) as (w' & Hrun & Hp').
    { apply forallb_forall. intros q Hq. rewrite (usable_patched q Hpt).
      rewrite forallb_forall in Hu. now apply Hu. }
    { now apply (read_patched_none fp Hpt). }
    exists w'. split; [|now apply (patched_step Hpt Hp')].
    cbn [app HighPatcher.patch_files]. now rewrite Hrd, Ha, Hw.
Qed.

End FilePass.

(** ** Paths *)

Lemma sapp_assoc (a b c : string) : ((a ++ b) ++ c = a ++ (b ++ c))%string.
Proof. induction a as [|x a IH]; simpl; [reflexivity | now rewrite IH]. Qed.

Lemma prefix_app (a b : string) : String.prefix a (a ++ b) = true.
Proof.
  induction a as [|x a IH]; simpl; [destruct b; reflexivity|].
  destruct (ascii_dec x x); [exact IH | contradiction].
Qed.

Lemma contains_prefix (n h : string) : String.prefix n h = true -> contains n h = true.
Proof. intros H. destruct h; cbn [contains]; now rewrite H. Qed.

Lemma contains_cons (n h : string) (c : ascii) :
  contains n h = true -> contains n (String c h) = true.
Proof. intros H. cbn [contains]. rewrite H. apply orb_true_r. Qed.

Lemma contains_app_left (n a h : string) :
  contains n h = true -> contains n (a ++ h) = true.
Proof.
  intros H. induction a as [|x a IH]; [exact H|].
  simpl String.append. now apply contains_cons.
Qed.

(** A component of a path is a substring of the path. *)
Lemma segments_from_contains (seg : string) (p : string) :
  forall cur, In seg (segments_from cur p) -> contains seg (cur ++ p) = true.
Proof.
  induction p as [|c p IH]; intros cur H.
  - destruct H as [<-|[]]. apply contains_prefix, prefix_app.
  - cbn [segments_from] in H. destruct (Ascii.eqb c "/").
    + destruct H as [<-|H]; [apply contains_prefix, prefix_app|].
      apply contains_app_left, contains_cons. exact (IH ""%string H).
    + apply IH in H. rewrite sapp_assoc in H. exact H.
Qed.

Lemma segments_contains (seg p : string) :
  In seg (segments p) -> contains seg p = true.
Proof. intros H. exact (segments_from_contains seg p ""%string H). Qed.

Lemma In_removelast (A : Type) (x : A) (l : list A) : In x (removelast l) -> In x l.
Proof.
  induction l as [|a l IH]; [contradiction|].
  cbn [removelast]. destruct l as [|b l]; [contradiction|].
  intros [->|H]; [now left | right; now apply IH].
Qed.

Lemma find_first (A : Type) (p : A -> bool) (pre : list A) (d : A) (post : list A) :
  forallb (fun x => negb (p x)) pre = true -> p d = true ->
  find p (pre ++ d :: post) = Some d.
Proof.
  intros Hpre Hd. induction pre as [|x pre IH]; simpl.
  - now rewrite Hd.
  - simpl in Hpre. apply andb_true_iff in Hpre. destruct Hpre as [Hx Hpre].
    apply negb_true_iff in Hx. rewrite Hx. now apply IH.
Qed.


(** ** Discovery *)


(** C5, as the code has it: discovery removes every globbed path in
    which an excluded name occurs as a substring, so every path under an
    excluded directory, and keeps every other globbed path. *)
Theorem find_files_exclusion (self : HighPatcher.t) (w : world) (src pat : string) :
  (forall f ex,
      In ex HighPatcher.EX_D -> under_dir ex f ->
      ~ In f (HighPatcher._find_files self w src pat)) /\
  (forall f,
      In f (HighPatcher._find_files self w src pat) <->
      In f (w_glob w (path_join src ["**"%string; pat])) /\
      forall ex, In ex HighPatcher.EX_D -> contains ex f = false).
Proof.
  assert (Hiff : forall f,
             In f (HighPatcher._find_files self w src pat) <->
             In f (w_glob w (path_join src ["**"%string; pat])) /\
             forall ex, In ex HighPatcher.EX_D -> contains ex f = false).
  { intros f. unfold HighPatcher._find_files. rewrite filter_In.
    split; intros [Hg Hex]; (split; [exact Hg|]).
    - intros ex Hin. apply negb_true_iff in Hex.
      destruct (contains ex f) eqn:E; [|reflexivity].
      assert (Ht : existsb (fun ex0 => contains ex0 f) HighPatcher.EX_D = true)
        by (apply existsb_exists; eauto).
      congruence.
    - apply negb_true_iff.
      destruct (existsb (fun ex => contains ex f) HighPatcher.EX_D) eqn:E;
        [|reflexivity].
      apply existsb_exists in E. destruct E as (ex & Hin & Hc).
      rewrite (Hex ex Hin) in Hc. discriminate. }
  split; [|exact Hiff].
  intros f ex Hin Hunder Hf. apply Hiff in Hf. destruct Hf as [_ Hex].
  apply In_removelast, segments_contains in Hunder.
  rewrite (Hex ex Hin) in Hunder. discriminate.
Qed.

(** C7: the rule list of a patcher is a function of its profile name:
    the ten categories in order for high, and the device identity rules
    for every other name. *)
Theorem patches_of_fallback (profile : string) :
  (profile = "high"%string ->
   HighPatcher.patches_of profile =
     GPU_P ++ SM_P ++ WV_P ++ RB_P ++ SO_P ++ MS_P ++ RT_P ++ SF_P ++ TX_P ++ RN_P) /\
  (profile <> "high"%string -> HighPatcher.patches_of profile = GPU_P).
Proof.
  unfold HighPatcher.patches_of. split.
  - intros ->. reflexivity.
  - intros H. apply String.eqb_neq in H. now rewrite H.
Qed.

(** ** The run *)

Section Run.
Variable U : unicode_db.
Variable self : HighPatcher.t.

(** C1, as the code has it: when every discovered file can be read and
    written, the run writes every one of them back, once per discovery and
    in discovery order, with the text the rule list produces, whether or
    not that text differs from what the file held; every other file is
    left as it was. *)
Theorem apply_writes_every_file (w : world) (src : string) :
  forallb (usable w) (HighPatcher.cap_files self w src) = true ->
  exists w',
    HighPatcher.apply U self w src = (Ret 0%Z, w') /\
    w_writes w' = w_writes w ++ HighPatcher.cap_files self w src /\
    (forall q f,
        In q (HighPatcher.cap_files self w src) ->
        file_at q (w_files w) = Some f ->
        exists txt,
          HighPatcher._apply_content U self (f_text f)
            (HighPatcher.patches_of (HighPatcher.profile self)) = Some txt /\
          file_at q (w_files w') = Some (with_text f txt)) /\
    (forall q,
        ~ In q (HighPatcher.cap_files self w src) ->
        file_at q (w_files w') = file_at q (w_files w)).
Proof.
  intros Hu.
  pose proof (checked_patches_of (HighPatcher.profile self)) as Hc.
  unfold checked in Hc.
  destruct (decode_all (HighPatcher.patches_of (HighPatcher.profile self)))
    as [rs|] eqn:Hdec; [|discriminate].
  apply andb_true_iff in Hc. destruct Hc as [Hwf Hind].
  destruct (@patch_files_ok U self _ rs Hdec Hwf Hind _ w Hu) as (w' & Hrun & Hp).
  exists w'. unfold HighPatcher.apply. rewrite Hrun.
  destruct Hp as (_ & _ & Hw & Hf).
  split; [reflexivity|]. split; [exact Hw|]. split.
  - intros q f Hin Ef. exists (@rules_sub U rs (f_text f)).
    split; [now apply apply_content_rules|].
    rewrite Hf, Ef.
    destruct (in_dec string_dec q (HighPatcher.cap_files self w src));
      [reflexivity | contradiction].
  - intros q Hn. rewrite Hf.
    destruct (file_at q (w_files w)); [|reflexivity].
    destruct (in_dec string_dec q (HighPatcher.cap_files self w src));
      [contradiction | reflexivity].
Qed.

(** C2, as the code has it: the value of a run that completes is 0,
    however many files it modified; and the run completes when every
    discovered file can be read and written. *)
Theorem apply_returns_zero (w : world) (src : string) :
  (forall r, fst (HighPatcher.apply U self w src) = Ret r -> r = 0%Z) /\
  (forallb (usable w) (HighPatcher.cap_files self w src) = true ->
   fst (HighPatcher.apply U self w src) = Ret 0%Z).
Proof.
  split.
  - intros r. unfold HighPatcher.apply.
    destruct (HighPatcher.patch_files U self w _ _) as [[u|e] w']; cbn [fst].
    + now intros [= <-].
    + discriminate.
  - intros Hu.
    pose proof (checked_patches_of (HighPatcher.profile self)) as Hc.
    unfold checked in Hc.
    destruct (decode_all (HighPatcher.patches_of (HighPatcher.profile self)))
      as [rs|] eqn:Hdec; [|discriminate].
    apply andb_true_iff in Hc. destruct Hc as [Hwf Hind].
    destruct (@patch_files_ok U self _ rs Hdec Hwf Hind _ w Hu) as (w' & Hrun & _).
    unfold HighPatcher.apply. now rewrite Hrun.
Qed.

(** C6, as the code has it: a file that cannot be opened for reading
    stops the run with that error.  Each file discovered before it has
    been written and holds the text the rule list produces from its old
    text; no other file has been written, so the file itself and the files
    discovered after it hold what they held. *)
Theorem apply_stops_at_read_error (w : world) (src : string)
        (pre : list string) (fp : string) (post : list string) :
  HighPatcher.cap_files self w src = pre ++ fp :: post ->
  forallb (usable w) pre = true ->
  read_text w fp = None ->
  exists w',
    HighPatcher.apply U self w src = (Raise (OSError fp), w') /\
    w_writes w' = w_writes w ++ pre /\
    (forall q f,
        In q pre ->
        file_at q (w_files w) = Some f ->
        exists txt,
          HighPatcher._apply_content U self (f_text f)
            (HighPatcher.patches_of (HighPatcher.profile self)) = Some txt /\
          file_at q (w_files w') = Some (with_text f txt)) /\
    (forall q, ~ In q pre -> file_at q (w_files w') = file_at q (w_files w)).
Proof.
  intros Hfiles Hu Hr.
  pose proof (checked_patches_of (HighPatcher.profile self)) as Hc.
  unfold checked in Hc.
  destruct (decode_all (HighPatcher.patches_of (HighPatcher.profile self)))
    as [rs|] eqn:Hdec; [|discriminate].
  apply andb_true_iff in Hc. destruct Hc as [Hwf Hind].
  destruct (@patch_files_read_error U self _ rs Hdec Hwf Hind pre fp post w Hu Hr)
    as (w' & Hrun & Hp).
  exists w'. unfold HighPatcher.apply. rewrite Hfiles, Hrun.
  destruct Hp as (_ & _ & Hw & Hf).
  split; [reflexivity|]. split; [exact Hw|]. split.
  - intros q f Hin Ef. exists (@rules_sub U rs (f_text f)).
    split; [now apply apply_content_rules|].
    rewrite Hf, Ef.
    destruct (in_dec string_dec q pre); [reflexivity | contradiction].
  - intros q Hn. rewrite Hf.
    destruct (file_at q (w_files w)); [|reflexivity].
    destruct (in_dec string_dec q pre); [contradiction | reflexivity].
Qed.

End Run.

(** ** The claims on sample inputs *)

(** C1 fails as stated: the only discovered file already holds the text
    the rules produce, the run changes no file, and yet the file is opened
    for writing and written. *)
Lemma unchanged_file_is_written :
  HighPatcher._apply_content ascii_db high_patcher
    (py "adapter_id.vendor_id = 0x1002;") (HighPatcher.patches_of "high") =
    Some (py "adapter_id.vendor_id = 0x1002;") /\
  changed_files world_settled
    (snd (HighPatcher.apply ascii_db high_patcher world_settled "proj")) = [] /\
  w_writes (snd (HighPatcher.apply ascii_db high_patcher world_settled "proj")) =
    ["proj/src/device.c"%string].
Proof. repeat split; vm_compute; reflexivity. Qed.

Lemma apply_writes_every_file_witness :
  exists w',
    HighPatcher.apply ascii_db high_patcher world_settled "proj" = (Ret 0%Z, w') /\
    w_writes w' = ["proj/src/device.c"%string].
Proof.
  destruct (@apply_writes_every_file ascii_db high_patcher world_settled "proj" eq_refl)
    as (w' & Hrun & Hw & _).
  exists w'. split; [exact Hrun | exact Hw].
Defined.

(** C2 fails as stated: the run modifies one file and returns 0. *)
Lemma modified_file_not_counted :
  changed_files world_stale
    (snd (HighPatcher.apply ascii_db high_patcher world_stale "proj")) =
    ["proj/src/device.c"%string] /\
  fst (HighPatcher.apply ascii_db high_patcher world_stale "proj") = Ret 0%Z.
Proof. split; vm_compute; reflexivity. Qed.

Lemma apply_returns_zero_witness :
  fst (HighPatcher.apply ascii_db high_patcher world_stale "proj") = Ret 0%Z.
Proof.
  exact (proj2 (apply_returns_zero ascii_db high_patcher world_stale "proj") eq_refl).
Defined.

(** C6 fails as stated: the first discovered file cannot be opened, the
    run ends with that error, and the second file, which the rules would
    change, is neither written nor changed. *)
Lemma read_error_aborts_run :
  HighPatcher.cap_files high_patcher world_locked "proj" =
    ["proj/src/a/device.c"%string; "proj/src/b/device.c"%string] /\
  HighPatcher.apply ascii_db high_patcher world_locked "proj" =
    (Raise (OSError "proj/src/a/device.c"), world_locked) /\
  read_text world_locked "proj/src/b/device.c" =
    Some (py "adapter_id.vendor_id = 0x10DE;") /\
  HighPatcher._apply_content ascii_db high_patcher
    (py "adapter_id.vendor_id = 0x10DE;") (HighPatcher.patches_of "high") =
    Some (py "adapter_id.vendor_id = 0x1002;").
Proof. repeat split; vm_compute; reflexivity. Qed.

Lemma apply_stops_at_read_error_witness :
  exists w',
    HighPatcher.apply ascii_db high_patcher world_locked_second "proj" =
      (Raise (OSError "proj/src/b/device.c"), w') /\
    w_writes w' = ["proj/src/a/device.c"%string] /\
    file_at "proj/src/a/device.c" (w_files w') =
      Some (plain_file (py "adapter_id.vendor_id = 0x1002;")) /\
    file_at "proj/src/b/device.c" (w_files w') =
      Some (locked_file (py "adapter_id.vendor_id = 0x10DE;")) /\
    file_at "proj/src/c/device.c" (w_files w') =
      Some (plain_file (py "adapter_id.vendor_id = 0x10DE;")).
Proof.
  destruct (@apply_stops_at_read_error ascii_db high_patcher world_locked_second
              "proj" ["proj/src/a/device.c"%string] "proj/src/b/device.c"%string
              ["proj/src/c/device.c"%string] eq_refl eq_refl eq_refl)
    as (w' & Hrun & Hw & Hpre & Hframe).
  exists w'. split; [exact Hrun|]. split; [exact Hw|].
  destruct (Hpre "proj/src/a/device.c"%string
                 (plain_file (py "adapter_id.vendor_id = 0x10DE;"))
                 (or_introl eq_refl) eq_refl) as (txt & Ht & Ha).
  vm_compute in Ht. injection Ht as Ht. subst txt.
  split; [rewrite Ha; reflexivity|].
  split; (rewrite Hframe; [reflexivity|]; intros [H|[]]; discriminate H).
Defined.

(** C5 fails as stated: no component of the path is an excluded name,
    the glob returns the path, and discovery drops it because contests
    contains tests. *)
Lemma contests_not_discovered :
  In "proj/src/contests/device.c"%string
     (w_glob world_contests (path_join "proj/src" ["**"%string; "device.c"%string])) /\
  (forall ex, In ex HighPatcher.EX_D ->
              ~ under_dir ex "proj/src/contests/device.c") /\
  HighPatcher._find_files high_patcher world_contests "proj/src" "device.c" = [].
Proof.
  split; [now left|]. split; [|reflexivity].
  intros ex Hex Hu. unfold under_dir in Hu. vm_compute in Hu.
  repeat (destruct Hex as [<-|Hex]; [intuition discriminate|]).
  contradiction.
Qed.

Lemma find_files_exclusion_witness :
  ~ In "proj/src/tests/device.c"%string
      (HighPatcher._find_files high_patcher world_tests "proj/src" "device.c") /\
  In "proj/src/device.c"%string
     (HighPatcher._find_files high_patcher world_tests "proj/src" "device.c").
Proof.
  destruct (find_files_exclusion high_patcher world_tests "proj/src" "device.c")
    as [Hout Hin].
  split.
  - apply (Hout _ "tests"%string); [now left | vm_compute; tauto].
  - apply Hin. split; [vm_compute; tauto|].
    intros ex Hex.
    repeat (destruct Hex as [<-|Hex]; [reflexivity|]). contradiction.
Defined.

Lemma patches_of_fallback_witness : HighPatcher.patches_of "low" = GPU_P.
Proof.
  apply (proj2 (patches_of_fallback "low")). discriminate.
Defined.


Lemma apply_content_no_semicolon_witness :
  HighPatcher._apply_content ascii_db high_patcher
    (py "adapter_id.vendor_id = 0x10DE") (HighPatcher.patches_of "high") =
  Some (py "adapter_id.vendor_id = 0x10DE").
Proof.
  apply apply_content_no_semicolon.
  intros H. vm_compute in H.
  repeat (destruct H as [H|H]; [discriminate H|]). exact H.
Defined.

(** The fallback profile on a file with both device identity
    assignments: both values are rewritten, line by line. *)
Example fallback_end_to_end :
  HighPatcher._apply_content ascii_db low_patcher
    (py "adapter_id.vendor_id = 0x10DE;" ++ [10%N] ++
     py "adapter_id.device_id = 0x2684;" ++ [10%N])
    (HighPatcher.patches_of (HighPatcher.profile low_patcher)) =
  Some (py "adapter_id.vendor_id = 0x1002;" ++ [10%N] ++
        py "adapter_id.device_id = 0x73DF;" ++ [10%N]).
Proof. vm_compute. reflexivity. Qed.

(** ** Further properties of the rule engine *)

Section Effects.
Context {U : unicode_db}.

(** *** A rule and the statements it does not own *)

Lemma app_eq_suffix (a x b y : str) :
  a ++ x = b ++ y -> suffixb x y = true \/ suffixb y x = true.
Proof.
  intros E. apply app_eq_app in E.
  destruct E as (l & [[-> ->]|[-> ->]]).
  - left. apply suffixb_app.
  - right. apply suffixb_app.
Qed.

(** The text before an equals sign cannot end with the names of two
    independent rules. *)
Lemma independent_heads (ri rj : crule) (pre ws1 : str) :
  wf_rule ri = true -> wf_rule rj = true -> independent ri rj = true ->
  forallb (is_space U) ws1 = true ->
  forall pre' ws, forallb (is_space U) ws = true ->
                  pre ++ r_var ri ++ ws1 <> pre' ++ r_var rj ++ ws.
Proof.
  intros Hwfi Hwfj Hind H1 pre' ws Hws E.
  unfold independent in Hind. apply andb_true_iff in Hind.
  destruct Hind as [Hij Hji]. apply negb_true_iff in Hij, Hji.
  destruct (wf_var_last ri Hwfi) as (x0 & cx & Ei & Hcx).
  destruct (wf_var_last rj Hwfj) as (y0 & cy & Ej & Hcy).
  rewrite Ei, Ej, !app_assoc in E.
  pose proof (@trailing_blanks U (pre ++ x0) cx (pre' ++ y0) cy [] ws1 ws
                Hcx Hcy H1 Hws E) as E'.
  cbn [app] in E'. rewrite <- !app_assoc, <- Ei, <- Ej in E'.
  apply app_eq_suffix in E'. destruct E' as [H|H]; congruence.
Qed.

(** Where the name of the rule does not stand before the first equals
    sign of a statement, the scan goes on after that sign. *)
Lemma stmt_skip (r : crule) (A B : str) :
  wf_rule r = true ->
  forallb no_eq A = true ->
  forallb not_semi (A ++ c_eq :: B) = true ->
  (forall pre ws, forallb (is_space U) ws = true -> A <> pre ++ r_var r ++ ws) ->
  forall prev,
    stmt r prev (A ++ c_eq :: B) = A ++ c_eq :: stmt r (Some c_eq) B.
Proof.
  intros Hwf.
  assert (Hfail : forall (A' : str) prev,
             forallb no_eq A' = true ->
             forallb not_semi (A' ++ c_eq :: B) = true ->
             (forall pre ws, forallb (is_space U) ws = true ->
                             A' <> pre ++ r_var r ++ ws) ->
             hdr r prev (A' ++ c_eq :: B) = None).
  { intros A' prev HA Hu Hno.
    destruct (hdr r prev (A' ++ c_eq :: B)) as [g1|] eqn:Eh; [exfalso|reflexivity].
    assert (Hsome : exists g, hdr r prev (A' ++ c_eq :: B) = Some g) by eauto.
    apply hdr_ok in Hsome; try assumption.
    destruct Hsome as (ws1 & y & Hs & H1 & _).
    rewrite app_assoc in Hs.
    apply (first_split no_eq) in Hs; [| assumption | | reflexivity].
    - destruct Hs as [Hs _]. apply (Hno [] ws1 H1). exact Hs.
    - rewrite forallb_app, (wf_var_no_eq r Hwf), (spaces_no_eq _ H1). reflexivity. }
  induction A as [|a A IH]; intros HA Hu Hno prev.
  - rewrite stmt_eq, (Hfail [] prev HA Hu Hno). reflexivity.
  - rewrite stmt_eq, (Hfail (a :: A) prev HA Hu Hno).
    cbn [app]. f_equal. apply IH.
    + simpl in HA. now apply andb_true_iff in HA.
    + cbn [app forallb] in Hu. now apply andb_true_iff in Hu.
    + intros pre ws Hws E. apply (Hno (a :: pre) ws Hws). now rewrite E.
Qed.

Lemma spaces_no_c_eq (ws : str) :
  forallb (is_space U) ws = true -> ~ In c_eq ws.
Proof.
  intros Hws Hin. apply spaces_no_eq in Hws. rewrite forallb_forall in Hws.
  specialize (Hws _ Hin). unfold no_eq in Hws. now rewrite N.eqb_refl in Hws.
Qed.

Lemma vcond_head (c d : char) (l : str) :
  vcond (c :: d :: l) = true -> is_space U c = false.
Proof. cbn [vcond]. rewrite orb_false_r. now intros H%negb_true_iff. Qed.

(** The blanks that open the value of a match stay the same when
    another rule rewrites further right in the statement. *)
Lemma tail_keep (rj : crule) (y ws2 v : str) :
  wf_rule rj = true ->
  forallb not_semi y = true ->
  tail_at (y ++ [c_semi]) = Some (ws2, v, []) ->
  forall prev,
    exists v', tail_at (stmt rj prev y ++ [c_semi]) = Some (ws2, v', []).
Proof.
  intros Hwf Hy Ht prev.
  destruct (stmt_shape rj Hwf y Hy prev) as [->|(P & v0 & Hs & -> & HP & Hv0)];
    [eauto|].
  apply tail_at_some in Ht. destruct Ht as (E & Hws & Hall & Hv).
  replace (ws2 ++ v ++ [c_semi]) with ((ws2 ++ v) ++ [c_semi]) in E
    by now rewrite <- app_assoc.
  apply app_inj_tail in E. destruct E as [E _].
  rewrite Hs in E. apply app_eq_app in E.
  destruct E as (l & [[-> ->]|[-> ->]]).
  - (* the prefix with the equals sign reaches beyond the blanks *)
    assert (Hl : exists c l', l = c :: l').
    { destruct l as [|c l']; [|eauto].
      exfalso. rewrite app_nil_r in HP. now apply (spaces_no_c_eq _ Hws). }
    destruct Hl as (c & l' & ->).
    destruct v0 as [|d v0]; [contradiction|].
    assert (Hc : is_space U c = false).
    { destruct l'; cbn [app] in Hv; now apply vcond_head in Hv. }
    exists ((c :: l') ++ r_val rj).
    replace (((ws2 ++ c :: l') ++ r_val rj) ++ [c_semi])
      with (ws2 ++ ((c :: l') ++ r_val rj) ++ [c_semi])
      by (now rewrite <- !app_assoc).
    apply tail_at_complete; try assumption.
    + rewrite forallb_app in Hall |- *. apply andb_true_iff in Hall.
      destruct Hall as [-> _]. apply (wf_val_not_semi rj Hwf).
    + cbn [app vcond]. now rewrite Hc.
  - (* the prefix with the equals sign would lie inside the blanks *)
    exfalso. rewrite forallb_app in Hws. apply andb_true_iff in Hws.
    destruct Hws as [Hws _]. now apply (spaces_no_c_eq _ Hws).
Qed.

(** A statement that reads some text without equals sign, an equals
    sign, blanks [ws2] and a value keeps that form, with the same text and
    blanks, when a rule whose name does not stand before the sign scans
    it. *)
Lemma stmt_keeps_target (rj : crule) (A y ws2 v : str) :
  wf_rule rj = true ->
  forallb no_eq A = true ->
  forallb not_semi (A ++ c_eq :: y) = true ->
  (forall pre ws, forallb (is_space U) ws = true -> A <> pre ++ r_var rj ++ ws) ->
  tail_at (y ++ [c_semi]) = Some (ws2, v, []) ->
  forall prev,
    exists y' v',
      stmt rj prev (A ++ c_eq :: y) = A ++ c_eq :: y' /\
      forallb not_semi (A ++ c_eq :: y') = true /\
      tail_at (y' ++ [c_semi]) = Some (ws2, v', []).
Proof.
  intros Hwf HA Hu Hno Ht prev.
  assert (Hy : forallb not_semi y = true).
  { rewrite forallb_app in Hu. cbn [forallb] in Hu.
    repeat (apply andb_true_iff in Hu; destruct Hu as [? Hu]). assumption. }
  destruct (@tail_keep rj y ws2 v Hwf Hy Ht (Some c_eq)) as (v' & Hv').
  exists (stmt rj (Some c_eq) y), v'. split; [|split].
  - now apply stmt_skip.
  - rewrite <- (@stmt_skip rj A y Hwf HA Hu Hno prev).
    now apply stmt_not_semi.
  - exact Hv'.
Qed.

Lemma at_boundary_name (var x : str) prev :
  var <> [] -> at_boundary U prev (var ++ x) = at_boundary U prev var.
Proof. destruct var; [contradiction | reflexivity]. Qed.

Lemma wf_var_nonempty (r : crule) : wf_rule r = true -> r_var r <> [].
Proof.
  intros Hwf E. destruct (wf_var_last r Hwf) as (x & c & Hx & _).
  rewrite E in Hx. now destruct x.
Qed.

(** A name cannot stand both at a position and further left with only
    blanks after it. *)
Lemma name_not_shifted (r : crule) (a : char) (pre ws1 ws : str) :
  wf_rule r = true ->
  forallb (is_space U) ws1 = true -> forallb (is_space U) ws = true ->
  (a :: pre) ++ r_var r ++ ws1 <> r_var r ++ ws.
Proof.
  intros Hwf H1 Hws E.
  destruct (wf_var_last r Hwf) as (x0 & cx & Ex & Hcx).
  rewrite Ex, !app_assoc in E.
  pose proof (@trailing_blanks U ((a :: pre) ++ x0) cx x0 cx [] ws1 ws
                Hcx Hcx H1 Hws E) as E'.
  cbn [app] in E'. apply (f_equal (@length char)) in E'.
  cbn [length] in E'. rewrite !length_app in E'. cbn [length] in E'. lia.
Qed.

(** The rule rewrites the first assignment to its name in a statement
    that has no equals sign before it, when a word boundary stands before
    the name or the pattern asks for none. *)
Lemma stmt_fires (r : crule) (pre ws1 y ws2 v : str) :
  wf_rule r = true ->
  forallb no_eq pre = true ->
  forallb not_semi (pre ++ r_var r ++ ws1 ++ c_eq :: y) = true ->
  forallb (is_space U) ws1 = true ->
  tail_at (y ++ [c_semi]) = Some (ws2, v, []) ->
  forall prev,
    (r_b r = true -> at_boundary U (lastp pre prev) (r_var r) = true) ->
    stmt r prev (pre ++ r_var r ++ ws1 ++ c_eq :: y) =
    pre ++ r_var r ++ ws1 ++ c_eq :: ws2 ++ r_val r.
Proof.
  intros Hwf Hpre Hu H1 Ht.
  pose proof (wf_var_not_semi r Hwf) as Hvar.
  induction pre as [|a pre IH]; intros prev Hb.
  - cbn [app lastp] in *.
    pose proof Ht as Ht'. apply tail_at_some in Ht'.
    destruct Ht' as (Ey & H2 & Hall & Hv).
    replace (ws2 ++ v ++ [c_semi]) with ((ws2 ++ v) ++ [c_semi]) in Ey
      by now rewrite <- app_assoc.
    apply app_inj_tail in Ey. destruct Ey as [-> _].
    assert (Hh : hdr r prev (r_var r ++ ws1 ++ c_eq :: ws2 ++ v) =
                 Some (r_var r ++ ws1 ++ c_eq :: ws2)).
    { apply hdr_iff; try assumption.
      exists ws1, ws2, v. repeat split; try assumption.
      - rewrite <- !app_assoc. reflexivity.
      - intros Hbt. rewrite <- app_assoc.
        rewrite at_boundary_name by now apply wf_var_nonempty. auto. }
    rewrite stmt_eq, Hh, <- !app_assoc. reflexivity.
  - assert (Hh : hdr r prev ((a :: pre) ++ r_var r ++ ws1 ++ c_eq :: y) = None).
    { destruct (hdr r prev ((a :: pre) ++ r_var r ++ ws1 ++ c_eq :: y))
        as [g1|] eqn:Eh; [exfalso|reflexivity].
      assert (Hsome : exists g,
                 hdr r prev ((a :: pre) ++ r_var r ++ ws1 ++ c_eq :: y) = Some g)
        by eauto.
      apply hdr_ok in Hsome; try assumption.
      destruct Hsome as (ws & y' & Hs & Hws & _).
      rewrite !app_assoc in Hs. rewrite <- (app_assoc (a :: pre)) in Hs.
      apply (first_split no_eq) in Hs; [| | | reflexivity].
      - destruct Hs as [Hs _]. now apply name_not_shifted in Hs.
      - rewrite !forallb_app, Hpre, (wf_var_no_eq r Hwf), (spaces_no_eq _ H1).
        reflexivity.
      - rewrite forallb_app, (wf_var_no_eq r Hwf), (spaces_no_eq _ Hws).
        reflexivity. }
    rewrite stmt_eq, Hh. cbn [app]. f_equal. apply IH.
    + simpl in Hpre. now apply andb_true_iff in Hpre.
    + cbn [app forallb] in Hu. now apply andb_true_iff in Hu.
    + exact Hb.
Qed.

(** *** A list of rules over one statement *)

Lemma rule_sub_one_stmt (r : crule) (u : str) prev :
  wf_rule r = true -> forallb not_semi u = true ->
  rule_sub r prev (u ++ [c_semi]) = stmt r prev u ++ [c_semi].
Proof.
  intros Hwf Hu.
  rewrite (@rule_sub_stmt U r u [] (wf_var_not_semi r Hwf) Hu prev).
  now rewrite (@rule_sub_no_semi U r [] eq_refl).
Qed.

Lemma independent_sym (r1 r2 : crule) : independent r1 r2 = independent r2 r1.
Proof. unfold independent. apply andb_comm. Qed.

(** Once the rule has written its value, the other rules of the list
    leave the statement alone. *)
Lemma rules_after (r : crule) (rs : list crule) (pre ws1 ws2 : str) :
  wf_rule r = true -> forallb wf_rule rs = true ->
  forallb (independent r) rs = true ->
  forallb no_eq pre = true ->
  forallb not_semi pre = true ->
  forallb (is_space U) ws1 = true -> forallb (is_space U) ws2 = true ->
  rules_sub rs ((pre ++ r_var r ++ ws1 ++ c_eq :: ws2 ++ r_val r) ++ [c_semi]) =
  (pre ++ r_var r ++ ws1 ++ c_eq :: ws2 ++ r_val r) ++ [c_semi].
Proof.
  intros Hwf Hwfs Hind Hpre Hpre' H1 H2.
  apply rules_sub_fix. intros rj Hj.
  rewrite forallb_forall in Hwfs, Hind.
  specialize (Hwfs _ Hj). specialize (Hind _ Hj).
  assert (Hu : forallb not_semi
                 ((pre ++ r_var r ++ ws1) ++ c_eq :: ws2 ++ r_val r) = true).
  { rewrite !forallb_app. cbn [forallb]. rewrite forallb_app.
    rewrite Hpre', (wf_var_not_semi r Hwf), (spaces_not_semi _ H1),
      (spaces_not_semi _ H2), (wf_val_not_semi r Hwf). reflexivity. }
  replace (pre ++ r_var r ++ ws1 ++ c_eq :: ws2 ++ r_val r)
    with ((pre ++ r_var r ++ ws1) ++ c_eq :: ws2 ++ r_val r)
    by (now rewrite <- !app_assoc).
  rewrite rule_sub_one_stmt by assumption. f_equal.
  apply stmt_single_eq; try assumption.
  - rewrite !forallb_app, Hpre, (wf_var_no_eq r Hwf), (spaces_no_eq _ H1).
    reflexivity.
  - rewrite forallb_app, (spaces_no_eq _ H2), (wf_val_no_eq r Hwf). reflexivity.
  - now apply independent_heads.
Qed.

(** A list of independent rules that holds the rule rewrites the
    assignment to the value of the rule, wherever the rule stands in the
    list and whatever the other rules do to the old value before. *)
Lemma rules_target (r : crule) (pre ws1 ws2 : str) (rs : list crule) :
  wf_rule r = true ->
  forallb no_eq pre = true ->
  forallb not_semi pre = true ->
  forallb (is_space U) ws1 = true -> forallb (is_space U) ws2 = true ->
  (r_b r = true -> at_boundary U (lastp pre None) (r_var r) = true) ->
  forallb wf_rule rs = true -> all_independent rs = true -> In r rs ->
  forall y v,
    forallb not_semi y = true ->
    tail_at (y ++ [c_semi]) = Some (ws2, v, []) ->
    rules_sub rs ((pre ++ r_var r ++ ws1 ++ c_eq :: y) ++ [c_semi]) =
    (pre ++ r_var r ++ ws1 ++ c_eq :: ws2 ++ r_val r) ++ [c_semi].
Proof.
  intros Hwf Hpre Hpre' H1 H2 Hb.
  assert (Hns : forall y, forallb not_semi y = true ->
                  forallb not_semi (pre ++ r_var r ++ ws1 ++ c_eq :: y) = true).
  { intros y Hy. rewrite !forallb_app. cbn [forallb].
    rewrite Hpre', (wf_var_not_semi r Hwf), (spaces_not_semi _ H1), Hy.
    reflexivity. }
  induction rs as [|rj rs IH]; intros Hwfs Hind Hin y v Hy Ht; [contradiction|].
  simpl in Hwfs, Hind. apply andb_true_iff in Hwfs. apply andb_true_iff in Hind.
  destruct Hwfs as [Hwfj Hwfs]. destruct Hind as [Hj Hind].
  change (rules_sub (rj :: rs) ?s) with (rules_sub rs (rule_sub rj None s)).
  destruct Hin as [->|Hin].
  - rewrite rule_sub_one_stmt by auto.
    rewrite (@stmt_fires r pre ws1 y ws2 v Hwf Hpre (Hns y Hy) H1 Ht None Hb).
    now apply rules_after.
  - rewrite forallb_forall in Hj. specialize (Hj _ Hin).
    rewrite rule_sub_one_stmt by auto.
    destruct (@stmt_keeps_target rj (pre ++ r_var r ++ ws1) y ws2 v Hwfj)
      with (prev := @None char) as (y' & v' & Hs & Hu' & Ht').
    + rewrite !forallb_app, Hpre, (wf_var_no_eq r Hwf), (spaces_no_eq _ H1).
      reflexivity.
    + rewrite <- !app_assoc. now apply Hns.
    + apply independent_heads; try assumption. now rewrite independent_sym.
    + exact Ht.
    + rewrite <- !app_assoc in Hs. rewrite Hs.
      apply (IH Hwfs Hind Hin y' v'); [|exact Ht'].
      rewrite !forallb_app in Hu'. cbn [forallb] in Hu'.
      repeat (apply andb_true_iff in Hu'; destruct Hu' as [? Hu']). assumption.
Qed.

(** *** What a profile does to an assignment *)

(** X1: in a statement with no equals sign before it, an assignment to
    the name of a rule of the profile is rewritten to the value of that
    rule and nothing else in the statement changes: the text before the
    name, the name, the equals sign and the blanks around it stay.  This
    holds whatever the old value is (it may hold further assignments),
    when the rule asks for no word boundary or a boundary stands before the
    name. *)
Theorem target_assignment_rewritten (self : HighPatcher.t) (profile : string)
        (rs : list crule) (r : crule) (pre ws1 ws2 v : str) :
  decode_all (HighPatcher.patches_of profile) = Some rs ->
  In r rs ->
  forallb no_eq pre = true ->
  forallb not_semi pre = true ->
  forallb (is_space U) ws1 = true ->
  forallb (is_space U) ws2 = true ->
  forallb not_semi v = true ->
  vcond v = true ->
  (r_b r = true -> at_boundary U (lastp pre None) (r_var r) = true) ->
  HighPatcher._apply_content U self
    (pre ++ r_var r ++ ws1 ++ [c_eq] ++ ws2 ++ v ++ [c_semi])
    (HighPatcher.patches_of profile) =
  Some (pre ++ r_var r ++ ws1 ++ [c_eq] ++ ws2 ++ r_val r ++ [c_semi]).
Proof.
  intros Hdec Hin Hpre Hpre' H1 H2 Hall Hv Hb.
  pose proof (checked_patches_of profile) as Hc. unfold checked in Hc.
  rewrite Hdec in Hc. apply andb_true_iff in Hc. destruct Hc as [Hwfs Hind].
  assert (Hwf : wf_rule r = true) by (rewrite forallb_forall in Hwfs; auto).
  rewrite (apply_content_rules self _ Hdec). f_equal.
  replace (pre ++ r_var r ++ ws1 ++ [c_eq] ++ ws2 ++ v ++ [c_semi])
    with ((pre ++ r_var r ++ ws1 ++ c_eq :: (ws2 ++ v)) ++ [c_semi])
    by (rewrite <- !app_assoc; cbn [app]; rewrite <- ?app_assoc; reflexivity).
  replace (pre ++ r_var r ++ ws1 ++ [c_eq] ++ ws2 ++ r_val r ++ [c_semi])
    with ((pre ++ r_var r ++ ws1 ++ c_eq :: ws2 ++ r_val r) ++ [c_semi])
    by (rewrite <- !app_assoc; cbn [app]; rewrite <- ?app_assoc; reflexivity).
  apply (@rules_target r pre ws1 ws2 rs Hwf Hpre Hpre' H1 H2 Hb Hwfs Hind Hin
                       (ws2 ++ v) v).
  - rewrite forallb_app, (spaces_not_semi _ H2), Hall. reflexivity.
  - rewrite <- app_assoc. now apply tail_at_complete.
Qed.

(** *** The order of independent rules *)

(** A match at the start of a statement is still there, with the same
    group 1, after an independent rule has scanned the statement. *)
Lemma hdr_preserved (ri rj : crule) prev (u gi : str) :
  wf_rule ri = true -> wf_rule rj = true -> independent ri rj = true ->
  forallb not_semi u = true ->
  hdr ri prev u = Some gi ->
  hdr ri prev (stmt rj prev u) = Some gi.
Proof.
  intros Hwfi Hwfj Hind Hu Hh.
  pose proof (wf_var_not_semi ri Hwfi) as Hvar.
  apply hdr_iff in Hh; try assumption.
  destruct Hh as (ws1 & ws2 & v & Hg & Hs & H1 & H2 & Hv & Hb).
  assert (Hall : forallb not_semi v = true)
    by (rewrite Hs, forallb_app in Hu; now apply andb_true_iff in Hu).
  assert (Eu : u = (r_var ri ++ ws1) ++ c_eq :: (ws2 ++ v)).
  { rewrite Hs, Hg, <- !app_assoc. reflexivity. }
  destruct (@stmt_keeps_target rj (r_var ri ++ ws1) (ws2 ++ v) ws2 v Hwfj)
    with (prev := prev) as (y' & v' & Es & Hu' & Ht').
  - rewrite forallb_app, (wf_var_no_eq ri Hwfi), (spaces_no_eq _ H1). reflexivity.
  - now rewrite <- Eu.
  - apply (@independent_heads ri rj [] ws1 Hwfi Hwfj Hind H1).
  - rewrite <- app_assoc. now apply tail_at_complete.
  - rewrite <- Eu in Es. rewrite Es.
    apply tail_at_some in Ht'. destruct Ht' as (Ey & _ & _ & Hv').
    replace (ws2 ++ v' ++ [c_semi]) with ((ws2 ++ v') ++ [c_semi]) in Ey
      by now rewrite <- app_assoc.
    apply app_inj_tail in Ey. destruct Ey as [-> _].
    apply hdr_iff; try assumption.
    exists ws1, ws2, v'. repeat split; try assumption.
    + rewrite Hg, <- !app_assoc. reflexivity.
    + intros Hbt. specialize (Hb Hbt). rewrite Eu in Hb.
      rewrite <- !app_assoc in Hb |- *.
      rewrite at_boundary_name in Hb |- * by now apply wf_var_nonempty.
      exact Hb.
Qed.

(** Two independent rules never match at the same position. *)
Lemma hdr_both (ri rj : crule) prev (u gi gj : str) :
  wf_rule ri = true -> wf_rule rj = true -> independent ri rj = true ->
  forallb not_semi u = true ->
  hdr ri prev u = Some gi -> hdr rj prev u = Some gj -> False.
Proof.
  intros Hwfi Hwfj Hind Hu Hi Hj.
  apply hdr_iff in Hi; try assumption; [|apply (wf_var_not_semi ri Hwfi)].
  apply hdr_iff in Hj; try assumption; [|apply (wf_var_not_semi rj Hwfj)].
  destruct Hi as (wi1 & wi2 & vi & Hgi & Hsi & Hi1 & _).
  destruct Hj as (wj1 & wj2 & vj & Hgj & Hsj & Hj1 & _).
  rewrite Hsi, Hgi, Hgj, <- !app_assoc in Hsj.
  rewrite (app_assoc (r_var ri)), (app_assoc (r_var rj)) in Hsj.
  cbn [app] in Hsj.
  apply (first_split no_eq) in Hsj; [| | | reflexivity].
  - destruct Hsj as [E _].
    apply (@independent_heads ri rj [] wi1 Hwfi Hwfj Hind Hi1 [] wj1 Hj1 E).
  - rewrite forallb_app, (wf_var_no_eq ri Hwfi), (spaces_no_eq _ Hi1). reflexivity.
  - rewrite forallb_app, (wf_var_no_eq rj Hwfj), (spaces_no_eq _ Hj1). reflexivity.
Qed.

Lemma stmt_comm (ri rj : crule) (u : str) :
  wf_rule ri = true -> wf_rule rj = true -> independent ri rj = true ->
  forallb not_semi u = true ->
  forall prev,
    stmt ri prev (stmt rj prev u) = stmt rj prev (stmt ri prev u).
Proof.
  intros Hwfi Hwfj Hind.
  assert (Hind' : independent rj ri = true) by now rewrite independent_sym.
  pose proof Hind as Hsuf. unfold independent in Hsuf.
  apply andb_true_iff in Hsuf. destruct Hsuf as [Hij Hji].
  apply negb_true_iff in Hij, Hji.
  assert (Hside : forall (ra rb : crule) prev (x g : str),
             wf_rule ra = true -> wf_rule rb = true ->
             independent ra rb = true ->
             suffixb (r_var rb) (r_var ra) = false ->
             forallb not_semi x = true ->
             hdr ra prev x = Some g ->
             stmt ra prev (stmt rb prev x) = stmt rb prev (stmt ra prev x)).
  { intros ra rb prev x g Hwa Hwb Hab Hs Hx Hh.
    rewrite (stmt_eq ra prev (stmt rb prev x)).
    rewrite (@hdr_preserved ra rb prev x g Hwa Hwb Hab Hx Hh).
    rewrite (stmt_eq ra prev x), Hh.
    symmetry. now apply (@stmt_after_match U rb ra prev x g). }
  induction u as [|c u IH]; intros Hu prev.
  - destruct (hdr ri prev []) as [gi|] eqn:Ei.
    + now apply (Hside ri rj prev [] gi).
    + destruct (hdr rj prev []) as [gj|] eqn:Ej.
      * symmetry. now apply (Hside rj ri prev [] gj).
      * rewrite (stmt_eq rj prev []), Ej, (stmt_eq ri prev []), Ei.
        now rewrite (stmt_eq rj prev []), Ej.
  - destruct (hdr ri prev (c :: u)) as [gi|] eqn:Ei.
    + now apply (Hside ri rj prev (c :: u) gi).
    + destruct (hdr rj prev (c :: u)) as [gj|] eqn:Ej.
      * symmetry. now apply (Hside rj ri prev (c :: u) gj).
      * rewrite (stmt_eq rj prev (c :: u)), Ej.
        rewrite (stmt_eq ri prev (c :: u)), Ei.
        rewrite stmt_eq, (@hdr_step_none U ri rj prev c u Hwfi Hwfj Hu Ei).
        rewrite (stmt_eq rj prev (c :: stmt ri (Some c) u)),
          (@hdr_step_none U rj ri prev c u Hwfj Hwfi Hu Ej).
        f_equal. apply IH. simpl in Hu. now apply andb_true_iff in Hu.
Qed.

Lemma rule_sub_comm (ri rj : crule) :
  wf_rule ri = true -> wf_rule rj = true -> independent ri rj = true ->
  forall s prev,
    rule_sub ri prev (rule_sub rj prev s) = rule_sub rj prev (rule_sub ri prev s).
Proof.
  intros Hwfi Hwfj Hind s.
  pose proof (wf_var_not_semi ri Hwfi) as Hvi.
  pose proof (wf_var_not_semi rj Hwfj) as Hvj.
  induction s as [u Hu | u t Hu IH] using semi_ind; intros prev.
  - now rewrite !(@rule_sub_no_semi U _ u Hu).
  - rewrite (@rule_sub_stmt U rj u t Hvj Hu), (@rule_sub_stmt U ri u t Hvi Hu).
    rewrite (@rule_sub_stmt U ri _ _ Hvi (@stmt_not_semi U rj Hwfj u prev Hu)).
    rewrite (@rule_sub_stmt U rj _ _ Hvj (@stmt_not_semi U ri Hwfi u prev Hu)).
    rewrite stmt_comm, IH by assumption. reflexivity.
Qed.

Lemma all_independent_pair (rs : list crule) :
  all_independent rs = true ->
  forall x y, In x rs -> In y rs -> x = y \/ independent x y = true.
Proof.
  induction rs as [|r rs IH]; intros H x y Hx Hy; [contradiction|].
  simpl in H. apply andb_true_iff in H. destruct H as [Hr Hrs].
  rewrite forallb_forall in Hr.
  destruct Hx as [<-|Hx], Hy as [<-|Hy].
  - now left.
  - right. now apply Hr.
  - right. rewrite independent_sym. now apply Hr.
  - now apply IH.
Qed.

Lemma rules_sub_perm (rs rs' : list crule) :
  Permutation rs rs' ->
  (forall r, In r rs -> wf_rule r = true) ->
  (forall x y, In x rs -> In y rs -> x = y \/ independent x y = true) ->
  forall s, rules_sub rs s = rules_sub rs' s.
Proof.
  induction 1 as [|r l l' Hp IH|x y l|l l' l'' Hp1 IH1 Hp2 IH2];
    intros Hwf Hpair s.
  - reflexivity.
  - cbn [rules_sub fold_left]. apply IH.
    + intros r' Hr'. apply Hwf. now right.
    + intros a b Ha Hb. apply Hpair; now right.
  - cbn [rules_sub fold_left]. f_equal.
    destruct (Hpair x y) as [->|Hi]; [right; now left|now left|reflexivity|].
    apply rule_sub_comm; [apply Hwf; right; now left|apply Hwf; now left|exact Hi].
  - rewrite IH1 by assumption. apply IH2.
    + intros r Hr. apply Hwf. apply (Permutation_in _ (Permutation_sym Hp1) Hr).
    + intros a b Ha Hb.
      apply Hpair; [apply (Permutation_in _ (Permutation_sym Hp1) Ha)
                   |apply (Permutation_in _ (Permutation_sym Hp1) Hb)].
Qed.

Lemma decode_all_perm (pts pts' : list PT) :
  Permutation pts pts' ->
  forall rs, decode_all pts = Some rs ->
             exists rs', decode_all pts' = Some rs' /\ Permutation rs rs'.
Proof.
  induction 1 as [|pt l l' Hp IH|x y l|l l' l'' Hp1 IH1 Hp2 IH2]; intros rs H.
  - exists rs. split; [exact H|apply Permutation_refl].
  - cbn [decode_all] in H |- *.
    destruct (decode pt) as [r|]; [|discriminate].
    destruct (decode_all l) as [rl|]; [|discriminate].
    injection H as <-.
    destruct (IH rl eq_refl) as (rl' & -> & Hperm).
    exists (r :: rl'). split; [reflexivity|now constructor].
  - cbn [decode_all] in H |- *.
    destruct (decode y) as [ry|]; [|discriminate].
    destruct (decode x) as [rx|]; [|destruct (decode_all l); discriminate].
    destruct (decode_all l) as [rl|]; [|discriminate].
    injection H as <-.
    exists (rx :: ry :: rl). split; [reflexivity|constructor].
  - destruct (IH1 rs H) as (rs1 & H1 & P1).
    destruct (IH2 rs1 H1) as (rs2 & H2 & P2).
    exists rs2. split; [exact H2|exact (Permutation_trans P1 P2)].
Qed.

(** X2: the order in which the rules of a profile are listed does not
    matter: applying any rearrangement of the rule list of a profile to a
    text gives the same text as applying the list in its own order. *)
Theorem apply_content_order_irrelevant (self : HighPatcher.t) (profile : string)
        (patches' : list PT) (content : str) :
  Permutation (HighPatcher.patches_of profile) patches' ->
  HighPatcher._apply_content U self content patches' =
  HighPatcher._apply_content U self content (HighPatcher.patches_of profile).
Proof.
  intros Hp.
  pose proof (checked_patches_of profile) as Hc. unfold checked in Hc.
  destruct (decode_all (HighPatcher.patches_of profile)) as [rs|] eqn:Hd;
    [|discriminate].
  apply andb_true_iff in Hc. destruct Hc as [Hwf Hind].
  destruct (decode_all_perm Hp Hd) as (rs' & Hd' & Hperm).
  rewrite (apply_content_rules self _ Hd' content),
    (apply_content_rules self _ Hd content).
  f_equal. symmetry. apply rules_sub_perm; [exact Hperm| |].
  - rewrite forallb_forall in Hwf. exact Hwf.
  - now apply all_independent_pair.
Qed.

(** *** Statement by statement *)

(** The character before a position matters only through its class. *)
Lemma hdr_prev (r : crule) (p1 p2 : option char) (u : str) :
  wordp U p1 = wordp U p2 -> hdr r p1 u = hdr r p2 u.
Proof. intros E. unfold hdr, asgn_match, at_boundary. now rewrite E. Qed.

Lemma stmt_prev (r : crule) (p1 p2 : option char) (u : str) :
  wordp U p1 = wordp U p2 -> stmt r p1 u = stmt r p2 u.
Proof.
  intros E. rewrite (stmt_eq r p1 u), (stmt_eq r p2 u), (hdr_prev r p1 p2 u E).
  reflexivity.
Qed.

Lemma rule_sub_prev (r : crule) (p1 p2 : option char) (s : str) :
  wf_rule r = true -> wordp U p1 = wordp U p2 ->
  rule_sub r p1 s = rule_sub r p2 s.
Proof.
  intros Hwf E. pose proof (wf_var_not_semi r Hwf) as Hvar.
  induction s as [u Hu | u t Hu _] using semi_ind.
  - now rewrite !(@rule_sub_no_semi U r u Hu).
  - rewrite !(@rule_sub_stmt U r u t Hvar Hu). now rewrite (stmt_prev r p1 p2 u E).
Qed.

Lemma rule_sub_chunks (r : crule) (b : str) :
  wf_rule r = true ->
  forall a prev,
    rule_sub r prev (a ++ c_semi :: b) =
    rule_sub r prev (a ++ [c_semi]) ++ rule_sub r None b.
Proof.
  intros Hwf a. pose proof (wf_var_not_semi r Hwf) as Hvar.
  assert (Hb : rule_sub r (Some c_semi) b = rule_sub r None b)
    by now apply rule_sub_prev.
  pattern a. revert a. apply semi_ind; [intros u Hu prev | intros u t Hu IH prev].
  - rewrite (@rule_sub_stmt U r u b Hvar Hu), (@rule_sub_one_stmt r u prev Hwf Hu).
    rewrite Hb, <- app_assoc. reflexivity.
  - rewrite <- !app_assoc. cbn [app].
    rewrite !(@rule_sub_stmt U r u _ Hvar Hu), IH, <- app_assoc. reflexivity.
Qed.

Lemma rule_sub_ends_semi (r : crule) :
  wf_rule r = true ->
  forall a prev, exists a', rule_sub r prev (a ++ [c_semi]) = a' ++ [c_semi].
Proof.
  intros Hwf a. pose proof (wf_var_not_semi r Hwf) as Hvar.
  pattern a. revert a. apply semi_ind; [intros u Hu prev | intros u t Hu IH prev].
  - exists (stmt r prev u). now apply rule_sub_one_stmt.
  - destruct (IH (Some c_semi)) as (t' & Et).
    exists (stmt r prev u ++ c_semi :: t').
    rewrite <- !app_assoc. cbn [app].
    rewrite (@rule_sub_stmt U r u _ Hvar Hu), Et. reflexivity.
Qed.

Lemma rules_sub_chunks (rs : list crule) (b : str) :
  forallb wf_rule rs = true ->
  forall a,
    rules_sub rs (a ++ c_semi :: b) = rules_sub rs (a ++ [c_semi]) ++ rules_sub rs b.
Proof.
  revert b. induction rs as [|r rs IH]; intros b Hwf a.
  - cbn [rules_sub fold_left]. now rewrite <- app_assoc.
  - simpl in Hwf. apply andb_true_iff in Hwf. destruct Hwf as [Hr Hrs].
    change (rules_sub (r :: rs) (a ++ c_semi :: b))
      with (rules_sub rs (rule_sub r None (a ++ c_semi :: b))).
    change (rules_sub (r :: rs) (a ++ [c_semi]))
      with (rules_sub rs (rule_sub r None (a ++ [c_semi]))).
    change (rules_sub (r :: rs) b) with (rules_sub rs (rule_sub r None b)).
    rewrite (@rule_sub_chunks r b Hr a None).
    destruct (@rule_sub_ends_semi r Hr a None) as (a' & ->).
    rewrite <- app_assoc. cbn [app]. now apply IH.
Qed.

(** X3: the rules work statement by statement: when a text is cut after
    a semicolon, the patched text is the patched first part followed by
    the patched second part, for the rule list of every profile. *)
Theorem apply_content_by_statement (self : HighPatcher.t) (profile : string)
        (a b : str) :
  exists a' b',
    HighPatcher._apply_content U self (a ++ [c_semi]) (HighPatcher.patches_of profile)
    = Some a' /\
    HighPatcher._apply_content U self b (HighPatcher.patches_of profile) = Some b' /\
    HighPatcher._apply_content U self (a ++ [c_semi] ++ b)
                               (HighPatcher.patches_of profile)
    = Some (a' ++ b').
Proof.
  pose proof (checked_patches_of profile) as Hc. unfold checked in Hc.
  destruct (decode_all (HighPatcher.patches_of profile)) as [rs|] eqn:Hd;
    [|discriminate].
  apply andb_true_iff in Hc. destruct Hc as [Hwf _].
  exists (rules_sub rs (a ++ [c_semi])), (rules_sub rs b).
  rewrite !(apply_content_rules self _ Hd). repeat split.
  cbn [app]. now rewrite rules_sub_chunks.
Qed.

(** *** Semicolons *)

Lemma semis_app (a b : str) : semis (a ++ b) = semis a + semis b.
Proof. apply count_occ_app. Qed.

Lemma semis_none (u : str) : forallb not_semi u = true -> semis u = 0.
Proof.
  intros Hu. apply count_occ_not_In. intros Hin.
  rewrite forallb_forall in Hu. specialize (Hu _ Hin).
  unfold not_semi in Hu. cbn [mem] in Hu. now rewrite N.eqb_refl in Hu.
Qed.

Lemma rule_sub_semis (r : crule) :
  wf_rule r = true -> forall s prev, semis (rule_sub r prev s) = semis s.
Proof.
  intros Hwf s. pose proof (wf_var_not_semi r Hwf) as Hvar.
  induction s as [u Hu | u t Hu IH] using semi_ind; intros prev.
  - now rewrite (@rule_sub_no_semi U r u Hu).
  - rewrite (@rule_sub_stmt U r u t Hvar Hu), !semis_app.
    rewrite (@semis_none _ (@stmt_not_semi U r Hwf u prev Hu)), (@semis_none _ Hu).
    change (c_semi :: rule_sub r (Some c_semi) t)
      with ([c_semi] ++ rule_sub r (Some c_semi) t).
    change (c_semi :: t) with ([c_semi] ++ t).
    now rewrite !semis_app, IH.
Qed.

Lemma rules_sub_semis (rs : list crule) :
  forallb wf_rule rs = true -> forall s, semis (rules_sub rs s) = semis s.
Proof.
  induction rs as [|r rs IH]; intros Hwf s; [reflexivity|].
  simpl in Hwf. apply andb_true_iff in Hwf. destruct Hwf as [Hr Hrs].
  change (rules_sub (r :: rs) s) with (rules_sub rs (rule_sub r None s)).
  now rewrite IH, rule_sub_semis.
Qed.

(** X4: the rules neither add nor remove a semicolon: the patched text
    has as many semicolons as the text, for the rule list of every
    profile. *)
Theorem apply_content_keeps_semicolons (self : HighPatcher.t) (profile : string)
        (content : str) :
  exists c1,
    HighPatcher._apply_content U self content (HighPatcher.patches_of profile)
    = Some c1 /\
    semis c1 = semis content.
Proof.
  pose proof (checked_patches_of profile) as Hc. unfold checked in Hc.
  destruct (decode_all (HighPatcher.patches_of profile)) as [rs|] eqn:Hd;
    [|discriminate].
  apply andb_true_iff in Hc. destruct Hc as [Hwf _].
  exists (rules_sub rs content). split; [now apply apply_content_rules|].
  now apply rules_sub_semis.
Qed.

(** *** After the pass *)

Lemma decode_all_In (pts : list PT) (rs : list crule) (pt : PT) :
  decode_all pts = Some rs -> In pt pts ->
  exists r, decode pt = Some r /\ In r rs.
Proof.
  revert rs. induction pts as [|p pts IH]; intros rs H Hin; [contradiction|].
  cbn [decode_all] in H.
  destruct (decode p) as [r|] eqn:Ed; [|discriminate].
  destruct (decode_all pts) as [rs'|]; [|discriminate].
  injection H as <-. destruct Hin as [->|Hin].
  - exists r. split; [exact Ed | now left].
  - destruct (IH rs' eq_refl Hin) as (r' & Hd & Hr').
    exists r'. split; [exact Hd | now right].
Qed.

(** X5: once the rule list of a profile has been applied, no rule of the
    list changes the text any more: each substitution of the list, run on
    its own on the patched text, returns that text. *)
Theorem rule_settled_after_pass (self : HighPatcher.t) (profile : string)
        (content c1 pattern repl : str) (id : string) :
  In (pattern, repl, id) (HighPatcher.patches_of profile) ->
  HighPatcher._apply_content U self content (HighPatcher.patches_of profile)
  = Some c1 ->
  re_sub U pattern repl c1 = Some c1.
Proof.
  intros Hin Hrun.
  pose proof (checked_patches_of profile) as Hc. unfold checked in Hc.
  destruct (decode_all (HighPatcher.patches_of profile)) as [rs|] eqn:Hd;
    [|discriminate].
  apply andb_true_iff in Hc. destruct Hc as [Hwf Hind].
  rewrite (apply_content_rules self _ Hd) in Hrun. injection Hrun as <-.
  destruct (@decode_all_In _ rs _ Hd Hin) as (r & Hr & Hrs).
  rewrite (decode_sound _ _ _ (rules_sub rs content) Hr). f_equal.
  now apply rules_sub_stable.
Qed.

(** *** Names inside longer identifiers *)

(** A rule that asks for a word boundary does not fire on its name where
    no boundary stands before it. *)
Lemma stmt_blocked (r : crule) (pre ws1 B : str) :
  wf_rule r = true -> r_b r = true ->
  forallb no_eq pre = true -> forallb no_eq B = true ->
  forallb not_semi (pre ++ r_var r ++ ws1 ++ c_eq :: B) = true ->
  forallb (is_space U) ws1 = true ->
  forall prev,
    at_boundary U (lastp pre prev) (r_var r) = false ->
    stmt r prev (pre ++ r_var r ++ ws1 ++ c_eq :: B) =
    pre ++ r_var r ++ ws1 ++ c_eq :: B.
Proof.
  intros Hwf Hb Hpre HB Hu H1.
  induction pre as [|a pre IH]; intros prev Hbd.
  - cbn [app lastp] in *.
    assert (Hnone : hdr r prev (r_var r ++ ws1 ++ c_eq :: B) = None).
    { destruct (hdr r prev (r_var r ++ ws1 ++ c_eq :: B)) as [g1|] eqn:Eh;
        [exfalso|reflexivity].
      assert (Hsome : exists g, hdr r prev (r_var r ++ ws1 ++ c_eq :: B) = Some g)
        by eauto.
      apply hdr_ok in Hsome; try assumption.
      destruct Hsome as (wa & y & _ & _ & _ & Hbt). specialize (Hbt Hb).
      rewrite <- !app_assoc in Hbt.
      rewrite at_boundary_name in Hbt by now apply wf_var_nonempty.
      congruence. }
    rewrite stmt_eq, Hnone.
    pose proof (wf_var_no_eq r Hwf) as Hne.
    assert (Hshift : forall c var', r_var r = c :: var' ->
               forall pre' ws, forallb (is_space U) ws = true ->
                               var' ++ ws1 <> pre' ++ r_var r ++ ws).
    { intros c var' Ev pre' ws Hws E.
      apply (@name_not_shifted r c pre' ws ws1 Hwf Hws H1).
      cbn [app]. rewrite <- E. now rewrite Ev. }
    destruct (r_var r) as [|c var'] eqn:Ev.
    + exfalso. now apply (wf_var_nonempty r Hwf).
    + specialize (Hshift c var' eq_refl).
      cbn [app]. f_equal. rewrite app_assoc.
      cbn [app forallb] in Hu, Hne.
      apply andb_true_iff in Hu. destruct Hu as [_ Hu].
      apply andb_true_iff in Hne. destruct Hne as [_ Hne].
      apply (@stmt_single_eq U r Hwf (var' ++ ws1) B); try assumption.
      * rewrite forallb_app, Hne, (spaces_no_eq _ H1). reflexivity.
      * now rewrite <- app_assoc.
      * intros pre' ws Hws E. rewrite Ev in E. exact (Hshift pre' ws Hws E).
  - assert (Hnone : hdr r prev ((a :: pre) ++ r_var r ++ ws1 ++ c_eq :: B) = None).
    { destruct (hdr r prev ((a :: pre) ++ r_var r ++ ws1 ++ c_eq :: B)) as [g1|] eqn:Eh;
        [exfalso|reflexivity].
      assert (Hsome : exists g,
                 hdr r prev ((a :: pre) ++ r_var r ++ ws1 ++ c_eq :: B) = Some g)
        by eauto.
      apply hdr_ok in Hsome; try assumption.
      destruct Hsome as (wa & y & Hs & Ha & _).
      rewrite !app_assoc in Hs. rewrite <- (app_assoc (a :: pre)) in Hs.
      apply (first_split no_eq) in Hs; [| | | reflexivity].
      - destruct Hs as [Hs _].
        now apply (@name_not_shifted r a pre ws1 wa Hwf H1 Ha).
      - rewrite !forallb_app, Hpre, (wf_var_no_eq r Hwf), (spaces_no_eq _ H1).
        reflexivity.
      - rewrite forallb_app, (wf_var_no_eq r Hwf), (spaces_no_eq _ Ha). reflexivity. }
    rewrite stmt_eq, Hnone. cbn [app]. f_equal.
    cbn [app forallb] in Hu, Hpre.
    apply andb_true_iff in Hu. apply andb_true_iff in Hpre.
    apply IH; [tauto | tauto | exact Hbd].
Qed.

(** X7: a name of a rule built by [mk_asgn] that stands inside a longer
    identifier is left alone: when no word boundary stands before the name
    and the statement holds a single equals sign, the whole rule list of
    the profile returns the statement as it was. *)
Theorem shadowed_name_left_alone (self : HighPatcher.t) (profile : string)
        (rs : list crule) (r : crule) (pre ws1 v : str) :
  decode_all (HighPatcher.patches_of profile) = Some rs ->
  In r rs ->
  r_b r = true ->
  at_boundary U (lastp pre None) (r_var r) = false ->
  forallb no_eq pre = true ->
  forallb not_semi pre = true ->
  forallb (is_space U) ws1 = true ->
  forallb no_eq v = true ->
  forallb not_semi v = true ->
  HighPatcher._apply_content U self
    (pre ++ r_var r ++ ws1 ++ [c_eq] ++ v ++ [c_semi])
    (HighPatcher.patches_of profile) =
  Some (pre ++ r_var r ++ ws1 ++ [c_eq] ++ v ++ [c_semi]).
Proof.
  intros Hdec Hin Hb Hbd Hpre Hpre' H1 Hv Hv'.
  pose proof (checked_patches_of profile) as Hc. unfold checked in Hc.
  rewrite Hdec in Hc. apply andb_true_iff in Hc. destruct Hc as [Hwfs Hind].
  assert (Hwf : wf_rule r = true) by (rewrite forallb_forall in Hwfs; auto).
  rewrite (apply_content_rules self _ Hdec). f_equal.
  replace (pre ++ r_var r ++ ws1 ++ [c_eq] ++ v ++ [c_semi])
    with ((pre ++ r_var r ++ ws1 ++ c_eq :: v) ++ [c_semi])
    by (rewrite <- !app_assoc; cbn [app]; rewrite <- ?app_assoc; reflexivity).
  assert (Hu : forallb not_semi (pre ++ r_var r ++ ws1 ++ c_eq :: v) = true).
  { rewrite !forallb_app. cbn [forallb].
    rewrite Hpre', (wf_var_not_semi r Hwf), (spaces_not_semi _ H1), Hv'.
    reflexivity. }
  apply rules_sub_fix. intros rj Hj.
  assert (Hwfj : wf_rule rj = true) by (rewrite forallb_forall in Hwfs; auto).
  rewrite (@rule_sub_one_stmt rj _ None Hwfj Hu). f_equal.
  destruct (@all_independent_pair rs Hind r rj Hin Hj) as [<-|Hi].
  - now apply stmt_blocked.
  - rewrite !app_assoc. rewrite <- (app_assoc pre).
    apply (@stmt_single_eq U rj Hwfj (pre ++ r_var r ++ ws1) v); try assumption.
    + rewrite !forallb_app, Hpre, (wf_var_no_eq r Hwf), (spaces_no_eq _ H1).
      reflexivity.
    + now rewrite <- !app_assoc.
    + now apply independent_heads.
Qed.

End Effects.

(** ** Further properties of the run *)

Section Passes.
Context {U : unicode_db}.
Variable self : HighPatcher.t.

Lemma patched_flags (rs : list crule) (fps : list string) (w w' : world) (q : string) :
  patched rs fps w w' -> read_only w' q = read_only w q.
Proof.
  intros (_ & _ & _ & Hf). unfold read_only. rewrite Hf.
  destruct (file_at q (w_files w)) as [f|]; [|reflexivity].
  destruct (in_dec string_dec q fps); reflexivity.
Qed.

(** The loop stops at the first file that cannot be opened for writing;
    that file has been read by then. *)
Lemma patch_files_write_error (patches : list PT) (rs : list crule)
      (pre : list string) (fp : string) (post : list string) :
  decode_all patches = Some rs ->
  forallb wf_rule rs = true -> all_independent rs = true ->
  forall w,
    forallb (usable w) pre = true ->
    read_only w fp = true ->
    exists w',
      HighPatcher.patch_files U self w patches (pre ++ fp :: post) =
        (Raise (OSError fp), w') /\
      patched rs pre w w'.
Proof.
  intros Hdec Hwf Hind.
  induction pre as [|p pre IH]; intros w Hu Hro.
  - exists w. split; [|apply patched_nil].
    cbn [app HighPatcher.patch_files].
    unfold read_only in Hro. unfold read_text, write_text.
    destruct (file_at fp (w_files w)) as [f|]; [|discriminate].
    apply andb_true_iff in Hro. destruct Hro as [Hr Hw].
    apply negb_true_iff in Hw. rewrite Hr, Hw.
    now rewrite (apply_content_rules self _ Hdec).
  - simpl in Hu. apply andb_true_iff in Hu. destruct Hu as [Hp Hu].
    destruct (@patch_one U self patches rs Hdec w p Hp)
      as (f & w1 & Ef & Hrd & Ha & Hw & Hpt).
    destruct (IH w1) as (w' & Hrun & Hp').
    { apply forallb_forall. intros q Hq.
      rewrite (@usable_patched U rs [p] w w1 q Hpt).
      rewrite forallb_forall in Hu. now apply Hu. }
    { now rewrite (patched_flags fp Hpt). }
    exists w'. split; [|now apply (@patched_step U rs Hwf Hind w w1 w' p pre Hpt Hp')].
    cbn [app HighPatcher.patch_files]. now rewrite Hrd, Ha, Hw.
Qed.

(** X8: a discovered file that can be read but not opened for writing
    stops the run with that error.  Each file discovered before it has
    been written and holds the text the rule list produces from its old
    text; no other file has been written, so that file and the files
    discovered after it hold what they held. *)
Theorem apply_stops_at_write_error (w : world) (src : string)
        (pre : list string) (fp : string) (post : list string) :
  HighPatcher.cap_files self w src = pre ++ fp :: post ->
  forallb (usable w) pre = true ->
  read_only w fp = true ->
  exists w',
    HighPatcher.apply U self w src = (Raise (OSError fp), w') /\
    w_writes w' = w_writes w ++ pre /\
    (forall q f,
        In q pre ->
        file_at q (w_files w) = Some f ->
        exists txt,
          HighPatcher._apply_content U self (f_text f)
            (HighPatcher.patches_of (HighPatcher.profile self)) = Some txt /\
          file_at q (w_files w') = Some (with_text f txt)) /\
    (forall q, ~ In q pre -> file_at q (w_files w') = file_at q (w_files w)).
Proof.
  intros Hfiles Hu Hro.
  pose proof (checked_patches_of (HighPatcher.profile self)) as Hc.
  unfold checked in Hc.
  destruct (decode_all (HighPatcher.patches_of (HighPatcher.profile self)))
    as [rs|] eqn:Hdec; [|discriminate].
  apply andb_true_iff in Hc. destruct Hc as [Hwf Hind].
  destruct (@patch_files_write_error _ rs pre fp post Hdec Hwf Hind w Hu Hro)
    as (w' & Hrun & Hp).
  exists w'. unfold HighPatcher.apply. rewrite Hfiles, Hrun.
  destruct Hp as (_ & _ & Hw & Hf).
  split; [reflexivity|]. split; [exact Hw|]. split.
  - intros q f Hin Ef. exists (@rules_sub U rs (f_text f)).
    split; [now apply apply_content_rules|].
    rewrite Hf, Ef.
    destruct (in_dec string_dec q pre); [reflexivity | contradiction].
  - intros q Hn. rewrite Hf.
    destruct (file_at q (w_files w)); [|reflexivity].
    destruct (in_dec string_dec q pre); [contradiction | reflexivity].
Qed.

Lemma cap_files_patched (rs : list crule) (fps : list string) (w w' : world)
      (src : string) :
  patched rs fps w w' ->
  HighPatcher.cap_files self w' src = HighPatcher.cap_files self w src.
Proof.
  intros (Hd & Hg & _ & _).
  unfold HighPatcher.cap_files, HighPatcher.target_dir, HighPatcher._find_files,
    HighPatcher.probe.
  now rewrite Hd, Hg.
Qed.

(** X9: a second run over the tree changes no file: after a run in which
    every discovered file could be read and written, the same run finds
    the same files, completes, writes each of them again, and every path
    holds what it held after the first run. *)
Theorem apply_twice_same_files (w : world) (src : string) :
  forallb (usable w) (HighPatcher.cap_files self w src) = true ->
  exists w1 w2,
    HighPatcher.apply U self w src = (Ret 0%Z, w1) /\
    HighPatcher.apply U self w1 src = (Ret 0%Z, w2) /\
    HighPatcher.cap_files self w1 src = HighPatcher.cap_files self w src /\
    w_writes w2 = w_writes w1 ++ HighPatcher.cap_files self w src /\
    (forall q, file_at q (w_files w2) = file_at q (w_files w1)).
Proof.
  intros Hu.
  pose proof (checked_patches_of (HighPatcher.profile self)) as Hc.
  unfold checked in Hc.
  destruct (decode_all (HighPatcher.patches_of (HighPatcher.profile self)))
    as [rs|] eqn:Hdec; [|discriminate].
  apply andb_true_iff in Hc. destruct Hc as [Hwf Hind].
  destruct (@patch_files_ok U self _ rs Hdec Hwf Hind _ w Hu) as (w1 & Hrun1 & Hp1).
  pose proof (cap_files_patched src Hp1) as Hcap.
  assert (Hu1 : forallb (usable w1) (HighPatcher.cap_files self w1 src) = true).
  { rewrite Hcap. apply forallb_forall. intros q Hq.
    rewrite (@usable_patched U rs _ w w1 q Hp1).
    rewrite forallb_forall in Hu. now apply Hu. }
  destruct (@patch_files_ok U self _ rs Hdec Hwf Hind _ w1 Hu1) as (w2 & Hrun2 & Hp2).
  exists w1, w2. unfold HighPatcher.apply. rewrite Hrun1, Hrun2.
  split; [reflexivity|]. split; [reflexivity|]. split; [exact Hcap|].
  destruct Hp1 as (_ & _ & _ & Hf1). destruct Hp2 as (_ & _ & Hw2 & Hf2).
  split; [now rewrite Hw2, Hcap|].
  intros q. rewrite Hf2, Hcap, Hf1.
  destruct (file_at q (w_files w)) as [f|]; [|reflexivity].
  destruct (in_dec string_dec q (HighPatcher.cap_files self w src)); [|reflexivity].
  cbn [with_text f_text f_readable f_writable].
  now rewrite rules_sub_idem.
Qed.

End Passes.

(** ** Further properties of discovery *)

Lemma prefix_split (d f : string) :
  String.prefix d f = true -> exists r, f = (d ++ r)%string.
Proof.
  revert f. induction d as [|c d IH]; intros f H.
  - exists f. reflexivity.
  - destruct f as [|c' f]; [discriminate|]. cbn [String.prefix] in H.
    destruct (ascii_dec c c') as [<-|]; [|discriminate].
    destruct (IH f H) as (r & ->). exists r. reflexivity.
Qed.

Lemma prefix_app_right (n h t : string) :
  String.prefix n h = true -> String.prefix n (h ++ t) = true.
Proof.
  revert h. induction n as [|c n IH]; intros h H;
    [destruct (h ++ t)%string; reflexivity|].
  destruct h as [|c' h]; [discriminate|]. cbn [String.prefix String.append] in *.
  destruct (ascii_dec c c'); [now apply IH | discriminate].
Qed.

Lemma contains_app_right (n h t : string) :
  contains n h = true -> contains n (h ++ t) = true.
Proof.
  induction h as [|c h IH]; intros H.
  - cbn [contains] in H. rewrite orb_false_r in H.
    destruct n; [|discriminate]. destruct t; reflexivity.
  - cbn [contains] in H. apply orb_true_iff in H.
    change (String c h ++ t)%string with (String c (h ++ t)).
    cbn [contains]. apply orb_true_iff. destruct H as [H|H].
    + left. exact (@prefix_app_right n (String c h) t H).
    + right. now apply IH.
Qed.

(** A component that is not absolute is joined below the path. *)
Lemma join2_under (p b : string) :
  String.prefix "/" b = false -> exists s, join2 p b = (p ++ s)%string.
Proof.
  intros H. unfold join2. rewrite H.
  destruct (String.eqb p "" || ends_with_sep p); eauto.
Qed.

Lemma vkd3d_dirs_under (src d : string) :
  In d (HighPatcher.vkd3d_dirs src) -> exists s, d = (src ++ s)%string.
Proof.
  unfold HighPatcher.vkd3d_dirs, path_join. cbn [fold_left].
  intros [<-|[<-|[<-|[]]]].
  - destruct (@join2_under src "libs" eq_refl) as (s1 & ->).
    destruct (@join2_under (src ++ s1) "vkd3d" eq_refl) as (s2 & ->).
    exists (s1 ++ s2)%string. apply sapp_assoc.
  - apply (@join2_under src "src" eq_refl).
  - exists ""%string. clear. induction src as [|c s IH]; [reflexivity|].
    cbn [String.append]. now rewrite <- IH.
Qed.

Lemma target_dir_cases (w : world) (src : string) :
  In (HighPatcher.target_dir w src) (HighPatcher.vkd3d_dirs src).
Proof.
  unfold HighPatcher.target_dir.
  destruct (find (HighPatcher.probe w) (HighPatcher.vkd3d_dirs src)) as [d|] eqn:E.
  - now apply find_some in E.
  - right. right. now left.
Qed.

(** X10: when an excluded name occurs in the root path itself, discovery
    finds nothing and the run patches nothing and returns 0: every path
    the glob returns under a candidate directory contains the root path,
    hence the excluded name. *)
Theorem excluded_root_patches_nothing (U : unicode_db) (self : HighPatcher.t)
        (w : world) (src ex : string) :
  In ex HighPatcher.EX_D ->
  contains ex src = true ->
  glob_under w src = true ->
  HighPatcher.cap_files self w src = [] /\
  HighPatcher.apply U self w src = (Ret 0%Z, w).
Proof.
  intros Hex Hc Hg.
  assert (Hnone : HighPatcher.cap_files self w src = []).
  { unfold HighPatcher.cap_files, HighPatcher.CAP_F. cbn [flat_map].
    rewrite app_nil_r. unfold HighPatcher._find_files.
    unfold glob_under in Hg. rewrite forallb_forall in Hg.
    specialize (Hg _ (target_dir_cases w src)). rewrite forallb_forall in Hg.
    destruct (@vkd3d_dirs_under src _ (target_dir_cases w src)) as (s & Hs).
    remember (HighPatcher.target_dir w src) as td eqn:Etd. clear Etd.
    induction (w_glob w (path_join td ["**"%string; "device.c"%string]))
      as [|f fs IH]; [reflexivity|].
    cbn [filter].
    assert (Hf : existsb (fun ex0 => contains ex0 f) HighPatcher.EX_D = true).
    { apply existsb_exists. exists ex. split; [exact Hex|].
      destruct (@prefix_split td f (Hg f (or_introl eq_refl))) as (r & ->).
      rewrite Hs, sapp_assoc. now apply contains_app_right. }
    rewrite Hf. cbn [negb]. apply IH. intros x Hx. apply Hg. now right. }
  split; [exact Hnone|].
  unfold HighPatcher.apply. rewrite Hnone. reflexivity.
Qed.

(** X11: the probe counts excluded files.  When the first candidate
    directory that qualifies holds device.c only at paths with an excluded
    name, discovery finds nothing and the run patches nothing and returns
    0, whatever the later candidates hold. *)
Theorem probe_counts_excluded_files (U : unicode_db) (self : HighPatcher.t)
        (w : world) (src : string) (pre : list string) (d : string)
        (post : list string) :
  HighPatcher.vkd3d_dirs src = pre ++ d :: post ->
  forallb (fun x => negb (HighPatcher.probe w x)) pre = true ->
  HighPatcher.probe w d = true ->
  forallb (fun f => existsb (fun ex => contains ex f) HighPatcher.EX_D)
          (w_glob w (path_join d ["**"%string; "device.c"%string])) = true ->
  HighPatcher.cap_files self w src = [] /\
  HighPatcher.apply U self w src = (Ret 0%Z, w).
Proof.
  intros Hdirs Hpre Hd Hex.
  assert (Htd : HighPatcher.target_dir w src = d).
  { unfold HighPatcher.target_dir. rewrite Hdirs.
    now rewrite (@find_first _ (HighPatcher.probe w) pre d post Hpre Hd). }
  assert (Hnone : HighPatcher.cap_files self w src = []).
  { unfold HighPatcher.cap_files, HighPatcher.CAP_F. cbn [flat_map].
    rewrite app_nil_r, Htd. unfold HighPatcher._find_files.
    induction (w_glob w (path_join d ["**"%string; "device.c"%string]))
      as [|f fs IH]; [reflexivity|].
    cbn [forallb] in Hex. apply andb_true_iff in Hex. destruct Hex as [Hf Hfs].
    cbn [filter]. rewrite Hf. cbn [negb]. now apply IH. }
  split; [exact Hnone|].
  unfold HighPatcher.apply. rewrite Hnone. reflexivity.
Qed.

(** ** What the rules never change *)

Section Heads.
Context {U : unicode_db}.

(** A rule keeps the text of a statement up to its first equals sign. *)
Lemma stmt_head (r : crule) (A B : str) :
  wf_rule r = true ->
  forallb no_eq A = true ->
  forallb not_semi (A ++ c_eq :: B) = true ->
  forall prev,
    exists B', stmt r prev (A ++ c_eq :: B) = A ++ c_eq :: B' /\
               forallb not_semi B' = true.
Proof.
  intros Hwf HA Hu prev.
  assert (HB : forallb not_semi B = true).
  { rewrite forallb_app in Hu. cbn [forallb] in Hu.
    apply andb_true_iff in Hu. destruct Hu as [_ Hu].
    now apply andb_true_iff in Hu. }
  destruct (@stmt_shape U r Hwf _ Hu prev) as [->|(P & v & Hs & -> & HP & Hv)];
    [now exists B|].
  destruct (first_occ c_eq P HP) as (A1 & B1 & -> & HA1).
  rewrite <- app_assoc in Hs. cbn [app] in Hs.
  apply (first_split no_eq) in Hs; [| exact HA | exact HA1 | reflexivity].
  destruct Hs as [<- ->].
  exists (B1 ++ r_val r). split; [now rewrite <- app_assoc|].
  rewrite forallb_app in HB |- *. apply andb_true_iff in HB.
  destruct HB as [-> _]. apply (wf_val_not_semi r Hwf).
Qed.

Lemma rules_head (rs : list crule) (A : str) :
  forallb wf_rule rs = true ->
  forallb no_eq A = true -> forallb not_semi A = true ->
  forall B, forallb not_semi B = true ->
    exists B', rules_sub rs ((A ++ c_eq :: B) ++ [c_semi]) =
               (A ++ c_eq :: B') ++ [c_semi] /\
               forallb not_semi B' = true.
Proof.
  intros Hwfs HA HA'. induction rs as [|r rs IH]; intros B HB; [now exists B|].
  simpl in Hwfs. apply andb_true_iff in Hwfs. destruct Hwfs as [Hwf Hwfs].
  assert (Hu : forallb not_semi (A ++ c_eq :: B) = true).
  { rewrite forallb_app. cbn [forallb]. now rewrite HA', HB. }
  change (rules_sub (r :: rs) ?s) with (rules_sub rs (rule_sub r None s)).
  rewrite (@rule_sub_one_stmt U r _ None Hwf Hu).
  destruct (@stmt_head r A B Hwf HA Hu None) as (B1 & -> & HB1).
  now apply IH.
Qed.

(** X12: the rules never change the left-hand side of the first
    assignment of a statement: the text of a statement up to and including
    its first equals sign is the same after the rule list of a profile has
    been applied, and the statement still ends at its semicolon. *)
Theorem statement_head_kept (self : HighPatcher.t) (profile : string)
        (A B : str) :
  forallb no_eq A = true ->
  forallb not_semi A = true ->
  forallb not_semi B = true ->
  exists B',
    HighPatcher._apply_content U self (A ++ [c_eq] ++ B ++ [c_semi])
                               (HighPatcher.patches_of profile) =
    Some (A ++ [c_eq] ++ B' ++ [c_semi]) /\
    forallb not_semi B' = true.
Proof.
  intros HA HA' HB.
  pose proof (checked_patches_of profile) as Hc. unfold checked in Hc.
  destruct (decode_all (HighPatcher.patches_of profile)) as [rs|] eqn:Hd;
    [|discriminate].
  apply andb_true_iff in Hc. destruct Hc as [Hwf _].
  destruct (@rules_head rs A Hwf HA HA' B HB) as (B' & E & HB').
  exists B'. split; [|exact HB'].
  rewrite (apply_content_rules self _ Hd). f_equal.
  rewrite <- !app_assoc in E. exact E.
Qed.

Lemma rule_sub_no_eq (r : crule) (s : str) :
  wf_rule r = true -> forallb no_eq s = true ->
  forall prev, rule_sub r prev s = s.
Proof.
  intros Hwf. pose proof (wf_var_not_semi r Hwf) as Hvar.
  pattern s. revert s. apply semi_ind; [intros u Hu He prev | intros u t Hu IH He prev].
  - now apply rule_sub_no_semi.
  - rewrite forallb_app in He. cbn [forallb] in He.
    apply andb_true_iff in He. destruct He as [He1 He2].
    apply andb_true_iff in He2. destruct He2 as [_ He2].
    rewrite (@rule_sub_stmt U r u t Hvar Hu), (@stmt_no_eq U r Hwf u He1 Hu), IH
      by assumption.
    reflexivity.
Qed.

(** X13: a text without an equals sign is returned as it is by the rule
    list of every profile, however many statements it holds. *)
Theorem apply_content_no_equals (self : HighPatcher.t) (profile : string)
        (content : str) :
  forallb no_eq content = true ->
  HighPatcher._apply_content U self content (HighPatcher.patches_of profile) =
  Some content.
Proof.
  intros He.
  pose proof (checked_patches_of profile) as Hc. unfold checked in Hc.
  destruct (decode_all (HighPatcher.patches_of profile)) as [rs|] eqn:Hd;
    [|discriminate].
  apply andb_true_iff in Hc. destruct Hc as [Hwf _].
  rewrite (apply_content_rules self _ Hd). f_equal.
  apply rules_sub_fix. intros r Hr.
  rewrite forallb_forall in Hwf. now apply rule_sub_no_eq; [apply Hwf|].
Qed.

End Heads.

(** ** The further properties on sample inputs *)

Lemma target_assignment_rewritten_witness :
  HighPatcher._apply_content ascii_db high_patcher
    (py "  adapter_id.vendor_id = vk_info->vendorID;")
    (HighPatcher.patches_of "high") =
  Some (py "  adapter_id.vendor_id = 0x1002;").
Proof.
  apply (@target_assignment_rewritten ascii_db high_patcher "high" high_rules
           vendor_rule (py "  ") (py " ") (py " ") (py "vk_info->vendorID"));
    try (vm_compute; reflexivity).
  vm_compute. left. reflexivity.
Defined.

Lemma apply_content_order_irrelevant_witness :
  HighPatcher._apply_content ascii_db high_patcher
    (py "adapter_id.device_id = 1; adapter_id.vendor_id = 2;")
    (rev (HighPatcher.patches_of "high")) =
  HighPatcher._apply_content ascii_db high_patcher
    (py "adapter_id.device_id = 1; adapter_id.vendor_id = 2;")
    (HighPatcher.patches_of "high").
Proof.
  apply (@apply_content_order_irrelevant ascii_db high_patcher "high").
  apply Permutation_rev.
Defined.

Lemma rule_settled_after_pass_witness :
  re_sub ascii_db (mk_asgn (py "adapter_id.vendor_id")) (py "\g<1>0x1002;")
         (py "x = 1; adapter_id.vendor_id = 0x1002;") =
  Some (py "x = 1; adapter_id.vendor_id = 0x1002;").
Proof.
  apply (@rule_settled_after_pass ascii_db high_patcher "high"
           (py "x = 1; adapter_id.vendor_id = 0x10DE;") _ _ _ "gpu_vid"%string).
  - vm_compute. left. reflexivity.
  - vm_compute. reflexivity.
Defined.

Lemma shadowed_name_left_alone_witness :
  HighPatcher._apply_content ascii_db high_patcher
    (py "my_adapter_id.vendor_id = 7;") (HighPatcher.patches_of "high") =
  Some (py "my_adapter_id.vendor_id = 7;").
Proof.
  apply (@shadowed_name_left_alone ascii_db high_patcher "high" high_rules
           vendor_rule (py "my_") (py " ") (py " 7"));
    try (vm_compute; reflexivity).
  vm_compute. left. reflexivity.
Defined.

Lemma apply_stops_at_write_error_witness :
  exists w',
    HighPatcher.apply ascii_db high_patcher world_readonly "proj" =
      (Raise (OSError "proj/src/b/device.c"), w') /\
    w_writes w' = ["proj/src/a/device.c"%string] /\
    file_at "proj/src/a/device.c" (w_files w') =
      Some (plain_file (py "adapter_id.vendor_id = 0x1002;")) /\
    file_at "proj/src/b/device.c" (w_files w') =
      Some (readonly_file (py "adapter_id.vendor_id = 0x10DE;")) /\
    file_at "proj/src/c/device.c" (w_files w') =
      Some (plain_file (py "adapter_id.vendor_id = 0x10DE;")).
Proof.
  destruct (@apply_stops_at_write_error ascii_db high_patcher world_readonly "proj"
              ["proj/src/a/device.c"%string] "proj/src/b/device.c"
              ["proj/src/c/device.c"%string] eq_refl eq_refl eq_refl)
    as (w' & Hrun & Hw & Hpre & Hframe).
  exists w'. split; [exact Hrun|]. split; [exact Hw|].
  destruct (Hpre "proj/src/a/device.c"%string
                 (plain_file (py "adapter_id.vendor_id = 0x10DE;"))
                 (or_introl eq_refl) eq_refl) as (txt & Ht & Ha).
  vm_compute in Ht. injection Ht as Ht. subst txt.
  split; [rewrite Ha; reflexivity|].
  split; (rewrite Hframe; [reflexivity|]; intros [H|[]]; discriminate H).
Defined.

Lemma apply_twice_same_files_witness :
  exists w1 w2,
    HighPatcher.apply ascii_db high_patcher world_stale "proj" = (Ret 0%Z, w1) /\
    HighPatcher.apply ascii_db high_patcher w1 "proj" = (Ret 0%Z, w2) /\
    file_at "proj/src/device.c" (w_files w2) =
      file_at "proj/src/device.c" (w_files w1).
Proof.
  destruct (@apply_twice_same_files ascii_db high_patcher world_stale "proj" eq_refl)
    as (w1 & w2 & H1 & H2 & _ & _ & Hf).
  exists w1, w2. split; [exact H1|]. split; [exact H2|]. apply Hf.
Defined.

Lemma excluded_root_patches_nothing_witness :
  w_glob world_nested "ci/tests/proj/src/**/device.c" =
    ["ci/tests/proj/src/device.c"%string] /\
  HighPatcher.cap_files high_patcher world_nested "ci/tests/proj" = [] /\
  HighPatcher.apply ascii_db high_patcher world_nested "ci/tests/proj" =
    (Ret 0%Z, world_nested).
Proof.
  split; [reflexivity|].
  apply (@excluded_root_patches_nothing ascii_db high_patcher world_nested
           "ci/tests/proj" "tests").
  - left. reflexivity.
  - reflexivity.
  - reflexivity.
Defined.

Lemma probe_counts_excluded_files_witness :
  HighPatcher.probe world_probe "proj/src" = true /\
  HighPatcher._find_files high_patcher world_probe "proj/src" "device.c" =
    ["proj/src/device.c"%string] /\
  HighPatcher.cap_files high_patcher world_probe "proj" = [] /\
  HighPatcher.apply ascii_db high_patcher world_probe "proj" =
    (Ret 0%Z, world_probe).
Proof.
  split; [reflexivity|]. split; [reflexivity|].
  apply (@probe_counts_excluded_files ascii_db high_patcher world_probe "proj"
           [] "proj/libs/vkd3d" ["proj/src"%string; "proj"%string]);
    reflexivity.
Defined.

Lemma statement_head_kept_witness :
  exists B',
    HighPatcher._apply_content ascii_db high_patcher
      (py "adapter_id.vendor_id" ++ [c_eq] ++ py " 0x10DE" ++ [c_semi])
      (HighPatcher.patches_of "high") =
    Some (py "adapter_id.vendor_id" ++ [c_eq] ++ B' ++ [c_semi]) /\
    forallb not_semi B' = true.
Proof.
  apply (@statement_head_kept ascii_db high_patcher "high"
           (py "adapter_id.vendor_id") (py " 0x10DE")); reflexivity.
Defined.

Lemma apply_content_no_equals_witness :
  HighPatcher._apply_content ascii_db high_patcher
    (py "int adapter_id.vendor_id; return 0;") (HighPatcher.patches_of "high") =
  Some (py "int adapter_id.vendor_id; return 0;").
Proof.
  apply (@apply_content_no_equals ascii_db high_patcher "high"). reflexivity.
Defined.
